(** * The token-probability ranking core of [backend/api.py]

    A shallow embedding of the three language checkers of the backend
    (the two causal [LM] classes registered as 'aragpt2-base' and
    'aragpt2-mega', and the masked [BERTLM] class registered as
    'arabertv02-base'), followed by the properties of their
    [check_probabilities] and [postprocess] operations.

    Conventions of the embedding.
    - A Python [str] is the list of its Unicode code points.
    - A tensor of token ids is a list of naturals; a score or a probability
      is a rational number (the floating-point representation of the scores
      is outside the model; only their order and their values matter here).
    - A Python exception is a value of [error]; code that can raise lives
      in the [result] monad, and the order of the binds is the order of
      evaluation of the source.
    - The pretrained model, the tokenizer, the text normaliser, [torch.softmax]
      and [numpy.argsort] are the fields of records that stand for [self]
      and for the numeric libraries: they are opaque capabilities. *)

From Stdlib Require Import Bool String Ascii.
From Stdlib Require Import List Arith ZArith NArith QArith Qround Qpower Lia Lqa.
From Stdlib Require Import Permutation Sorted.
Import ListNotations.

Local Open Scope nat_scope.

(** ** Python results and exceptions *)

Inductive error : Type :=
| IndexError         (* list or tensor index out of range, or no match *)
| KeyError           (* dictionary lookup of [enc.decoder] *)
| ValueError         (* [range()] with a zero step *)
| RuntimeError       (* [torch.cat] of an empty list or of ragged rows *)
| ModelError (code : nat). (* whatever the forward pass raises *)

Inductive result (A : Type) : Type :=
| Ok (a : A)
| Err (e : error).

Arguments Ok {A} a.
Arguments Err {A} e.

Definition bind {A B : Type} (m : result A) (k : A -> result B) : result B :=
  match m with
  | Ok a => k a
  | Err e => Err e
  end.

Notation "x <- m ;; k" := (bind m (fun x => k))
  (at level 61, m at next level, right associativity).
Notation "' pat <- m ;; k" := (bind m (fun x => match x with pat => k end))
  (at level 61, pat pattern, m at next level, right associativity).

(** A list comprehension whose body can raise: the first exception wins. *)
Fixpoint mapM {A B : Type} (f : A -> result B) (l : list A) : result (list B) :=
  match l with
  | [] => Ok []
  | a :: l' => b <- f a ;; bs <- mapM f l' ;; Ok (b :: bs)
  end.

Definition of_option {A : Type} (e : error) (o : option A) : result A :=
  match o with
  | Some a => Ok a
  | None => Err e
  end.

(** ** Python sequences *)

(** [l[i]] for a non-negative index. *)
Definition getitem {A : Type} (l : list A) (i : nat) : result A :=
  of_option IndexError (nth_error l i).

(** [l[i] = v] for a non-negative index, on a fresh copy of [l]. *)
Fixpoint setitem {A : Type} (l : list A) (i : nat) (v : A) : result (list A) :=
  match l, i with
  | [], _ => Err IndexError
  | _ :: l', 0 => Ok (v :: l')
  | a :: l', S i' => r <- setitem l' i' v ;; Ok (a :: r)
  end.

(** [l[lo:hi]] for non-negative bounds (Python clamps both to the length). *)
Definition slice {A : Type} (l : list A) (lo hi : nat) : list A :=
  firstn (hi - lo) (skipn lo l).

(** [range(0, stop, step)]: the multiples of [step] below [stop]. *)
Definition py_range (stop step : nat) : result (list nat) :=
  match step with
  | 0 => Err ValueError
  | S _ => Ok (map (fun k => k * step) (seq 0 ((stop + step - 1) / step)))
  end.

(** [numpy.where(a == x)[0][0]]: the first position of [x] in [a]. *)
Fixpoint where_first (a : list nat) (x : nat) : result nat :=
  match a with
  | [] => Err IndexError
  | h :: a' => if h =? x then Ok 0 else i <- where_first a' x ;; Ok (S i)
  end.

(** [torch.nn.ConstantPad1d((left, right), value)] with non-negative widths. *)
Definition ConstantPad1d {A : Type} (left right : nat) (value : A) (l : list A)
  : list A :=
  repeat value left ++ l ++ repeat value right.

Definition same_width {A : Type} (rows : list (list A)) : bool :=
  match rows with
  | [] => true
  | r :: rows' => forallb (fun r' => length r' =? length r) rows'
  end.

(** [torch.cat(rows, dim=0)] of rows of shape [1, w]: refuses an empty list
    and rows of different widths. *)
Definition torch_cat {A : Type} (rows : list (list A)) : result (list (list A)) :=
  match rows with
  | [] => Err RuntimeError
  | _ => if same_width rows then Ok rows else Err RuntimeError
  end.

(** [torch.cat] of tensors of shape [1] (the targets of one batch). *)
Definition torch_cat1 {A : Type} (xs : list A) : result (list A) :=
  match xs with
  | [] => Err RuntimeError
  | _ => Ok xs
  end.

(** ** Python strings *)

Definition pystr : Type := list N.

(** An ASCII literal as a Python string. *)
Definition str (s : string) : pystr :=
  map N_of_ascii (list_ascii_of_string s).

Definition chr_G_dot : N := 288.          (* U+0120, byte-level space marker *)
Definition chr_a_circ : N := 226.         (* U+00E2 *)
Definition chr_C_dot : N := 266.          (* U+010A, line-break marker *)
Definition chr_l_caron : N := 318.        (* U+013E *)
Definition chr_L_middot : N := 319.       (* U+013F *)
Definition chr_L_cedilla : N := 315.      (* U+013B *)
Definition chr_ldquo : N := 8220.         (* U+201C *)
Definition chr_rdquo : N := 8221.         (* U+201D *)

Fixpoint startswith (token prefix : pystr) : bool :=
  match prefix, token with
  | [], _ => true
  | _ :: _, [] => false
  | p :: prefix', c :: token' => N.eqb c p && startswith token' prefix'
  end.

Definition pystr_eqb (a b : pystr) : bool :=
  if list_eq_dec N.eq_dec a b then true else false.

(** ** Numerics *)

(** [round(x, 5)] on the value of a float: the nearest multiple of 10^-5,
    ties to the even multiple. *)
Definition round_half_even (x : Q) : Z :=
  let f := Qfloor x in
  match Qcompare (x - inject_Z f) (1 # 2) with
  | Lt => f
  | Gt => (f + 1)%Z
  | Eq => if Z.even f then f else (f + 1)%Z
  end.

Definition round5 (x : Q) : Q :=
  Qmake (round_half_even (x * inject_Z 100000)) 100000.

(** The two library functions the checkers call on score vectors. *)
Record Numerics : Type := {
  softmax : list Q -> list Q;      (* torch.softmax(_, dim=-1) on one row *)
  argsort : list Q -> list nat     (* numpy.argsort on one row *)
}.

(** ** The result of [check_probabilities] *)

Record Payload : Type := {
  bpe_strings : list pystr;
  real_topk : list (nat * Q);
  pred_topk : list (list (pystr * Q))
}.

(** The [self] of the two causal checkers. *)
Record GPT2 : Type := {
  gpt2_prep : pystr -> pystr;                  (* self.arabert_prep.preprocess *)
  enc_encode : pystr -> list nat;              (* self.enc.encode *)
  enc_decoder : nat -> option pystr;           (* self.enc.decoder, a dict *)
  gpt2_model : list nat -> result (list (list Q)) (* self.model(context)[0][0] *)
}.

(** The [self] of the masked checker. The forward pass is taken to return
    the tensor of scores, as the indexing of the source expects, and it is
    given on one window: a batch is the list of its windows, so the batch
    dimension of the output is that of the input. *)
Record BERT : Type := {
  bert_prep : pystr -> pystr;                  (* self.arabert_prep.preprocess *)
  tokenize : pystr -> list pystr;              (* self.tokenizer.tokenize *)
  convert_token_to_id : pystr -> nat;          (* convert_tokens_to_ids, per token *)
  convert_id_to_token : nat -> pystr;          (* convert_ids_to_tokens, per id *)
  bert_model : list nat -> result (list (list Q)); (* self.model(src, 0)[b] *)
  mask_tok : nat;
  pad : nat
}.

(** ** The byte-level postprocessor shared by the causal checkers *)

Module AraGPT2Base.

(** The flags and the rewritten token, before the markers are added. *)
Definition postprocess_flags (token : pystr) : bool * bool * pystr :=
  let '(with_space, with_break, token) :=
    if startswith token [chr_G_dot] then (true, false, skipn 1 token)
    else if startswith token [chr_a_circ] then (false, false, str " ")
    else if startswith token [chr_C_dot] then (false, true, str " ")
    else (false, false, token) in
  let token := if startswith token [chr_a_circ] then str "-" else token in
  let token := if startswith token [chr_l_caron] then [chr_ldquo] else token in
  let token := if startswith token [chr_L_middot] then [chr_rdquo] else token in
  let token := if startswith token [chr_L_cedilla] then str "'" else token in
  (with_space, with_break, token).

Definition postprocess (token : pystr) : pystr :=
  let '(with_space, with_break, token) := postprocess_flags token in
  let token := if with_space then chr_G_dot :: token else token in
  let token := if with_break then chr_C_dot :: token else token in
  token.

Definition check_probabilities (np : Numerics) (self : GPT2)
    (in_text : pystr) (topk : nat) : result Payload :=
  let in_text := gpt2_prep self in_text in
  let context := enc_encode self in_text in
  logits <- gpt2_model self context ;;
  let yhat := map (softmax np) (removelast logits) in
  let y := tl context in
  let sorted_preds := map (fun row => argsort np (map Qopp row)) yhat in
  real_topk_pos <-
    mapM (fun i => sp <- getitem sorted_preds i ;;
                   yi <- getitem y i ;;
                   where_first sp yi)
         (seq 0 (length y)) ;;
  real_topk_probs <-
    mapM (fun i => yi <- getitem y i ;;
                   row <- getitem yhat i ;;
                   getitem row yi)
         (seq 0 (length y)) ;;
  let real_topk_probs := map round5 real_topk_probs in
  let real_topk := combine real_topk_pos real_topk_probs in
  bpe_strings <- mapM (fun s => of_option KeyError (enc_decoder self s)) context ;;
  let bpe_strings := map postprocess bpe_strings in
  pred_topk <-
    mapM (fun i => sp <- getitem sorted_preds i ;;
                   toks <- mapM (fun p => of_option KeyError (enc_decoder self p))
                                (firstn topk sp) ;;
                   row <- getitem yhat i ;;
                   probs <- mapM (getitem row) (firstn topk sp) ;;
                   Ok (combine toks (map round5 probs)))
         (seq 0 (length y)) ;;
  let pred_topk :=
    map (fun pred => map (fun t => (postprocess (fst t), snd t)) pred) pred_topk in
  Ok {| bpe_strings := bpe_strings;
        real_topk := real_topk;
        pred_topk := pred_topk |}.

End AraGPT2Base.

(** ** The second causal checker, registered as 'aragpt2-mega'

    The class differs from the first one in its constructor only (it loads
    the model and the tokenizer from another package); its two methods are
    translated here from its own text. *)

Module AraGPT2Mega.

Definition postprocess_flags (token : pystr) : bool * bool * pystr :=
  let '(with_space, with_break, token) :=
    if startswith token [chr_G_dot] then (true, false, skipn 1 token)
    else if startswith token [chr_a_circ] then (false, false, str " ")
    else if startswith token [chr_C_dot] then (false, true, str " ")
    else (false, false, token) in
  let token := if startswith token [chr_a_circ] then str "-" else token in
  let token := if startswith token [chr_l_caron] then [chr_ldquo] else token in
  let token := if startswith token [chr_L_middot] then [chr_rdquo] else token in
  let token := if startswith token [chr_L_cedilla] then str "'" else token in
  (with_space, with_break, token).

Definition postprocess (token : pystr) : pystr :=
  let '(with_space, with_break, token) := postprocess_flags token in
  let token := if with_space then chr_G_dot :: token else token in
  let token := if with_break then chr_C_dot :: token else token in
  token.

Definition check_probabilities (np : Numerics) (self : GPT2)
    (in_text : pystr) (topk : nat) : result Payload :=
  let in_text := gpt2_prep self in_text in
  let context := enc_encode self in_text in
  logits <- gpt2_model self context ;;
  let yhat := map (softmax np) (removelast logits) in
  let y := tl context in
  let sorted_preds := map (fun row => argsort np (map Qopp row)) yhat in
  real_topk_pos <-
    mapM (fun i => sp <- getitem sorted_preds i ;;
                   yi <- getitem y i ;;
                   where_first sp yi)
         (seq 0 (length y)) ;;
  real_topk_probs <-
    mapM (fun i => yi <- getitem y i ;;
                   row <- getitem yhat i ;;
                   getitem row yi)
         (seq 0 (length y)) ;;
  let real_topk_probs := map round5 real_topk_probs in
  let real_topk := combine real_topk_pos real_topk_probs in
  bpe_strings <- mapM (fun s => of_option KeyError (enc_decoder self s)) context ;;
  let bpe_strings := map postprocess bpe_strings in
  pred_topk <-
    mapM (fun i => sp <- getitem sorted_preds i ;;
                   toks <- mapM (fun p => of_option KeyError (enc_decoder self p))
                                (firstn topk sp) ;;
                   row <- getitem yhat i ;;
                   probs <- mapM (getitem row) (firstn topk sp) ;;
                   Ok (combine toks (map round5 probs)))
         (seq 0 (length y)) ;;
  let pred_topk :=
    map (fun pred => map (fun t => (postprocess (fst t), snd t)) pred) pred_topk in
  Ok {| bpe_strings := bpe_strings;
        real_topk := real_topk;
        pred_topk := pred_topk |}.

End AraGPT2Mega.

(** ** The masked checker, registered as 'arabertv02-base' *)

Module BERTLM.

(** The body of the inner loop up to the padding: the window of the
    target [mask_index + 1] of the document [y]. *)
Definition build_window (self : BERT) (y : list nat)
    (max_context mask_index : nat) : result (list nat) :=
  tokens_tensor <- setitem y (mask_index + 1) (mask_tok self) ;;
  let min_index := Nat.max 0 (mask_index - max_context) in
  let max_index := Nat.min (length tokens_tensor - 1)
                           (mask_index + max_context + 1) in
  let tokens_tensor := slice tokens_tensor min_index max_index in
  let needed_padding := max_context * 2 + 1 - length tokens_tensor in
  if (min_index =? 0) && (max_index =? length y - 1) then
    let left_needed := max_context - mask_index in
    let right_needed := needed_padding - left_needed in
    Ok (ConstantPad1d left_needed right_needed (pad self) tokens_tensor)
  else if min_index =? 0 then
    Ok (ConstantPad1d needed_padding 0 (pad self) tokens_tensor)
  else if max_index =? length y - 1 then
    Ok (ConstantPad1d 0 needed_padding (pad self) tokens_tensor)
  else Ok tokens_tensor.

(** The windows and the targets of the group that starts at [min_ix],
    before they are concatenated. *)
Definition build_group (self : BERT) (y : list nat)
    (max_context batch_size min_ix : nat) : result (list (list nat * nat)) :=
  let max_ix := Nat.min (min_ix + batch_size) (length y - 1) in
  mapM (fun running_ix =>
          let mask_index := min_ix + running_ix in
          tokens_tensor <- build_window self y max_context mask_index ;;
          target <- getitem y (mask_index + 1) ;;
          Ok (tokens_tensor, target))
       (seq 0 (max_ix - min_ix)).

(** One turn of the first loop: the group, then the two concatenations. *)
Definition batch_step (self : BERT) (y : list nat)
    (max_context batch_size min_ix : nat)
  : result (list (list nat) * list nat) :=
  cur <- build_group self y max_context batch_size min_ix ;;
  cur_input_batch <- torch_cat (map fst cur) ;;
  cur_target_batch <- torch_cat1 (map snd cur) ;;
  Ok (cur_input_batch, cur_target_batch).

(** The first loop: [input_batches] zipped with [target_batches]. *)
Definition build_batches (self : BERT) (y : list nat)
    (max_context batch_size : nat)
  : result (list (list (list nat) * list nat)) :=
  min_ixs <- py_range (length y) batch_size ;;
  mapM (batch_step self y max_context batch_size) min_ixs.

(** The body of the second loop: what one batch adds to [real_topk] and
    to [pred_topk]. *)
Definition score_batch (np : Numerics) (self : BERT) (topk max_context : nat)
    (batch : list (list nat) * list nat)
  : result (list (nat * Q) * list (list (pystr * Q))) :=
  let '(src, tgt) := batch in
  out <- mapM (bert_model self) src ;;
  logits <- mapM (fun o => getitem o (max_context + 1)) out ;;
  let yhat := map (softmax np) logits in
  let sorted_preds := map (fun row => argsort np (map Qopp row)) yhat in
  real_topk_pos <-
    mapM (fun i => sp <- getitem sorted_preds i ;;
                   ti <- getitem tgt i ;;
                   where_first sp ti)
         (seq 0 (length yhat)) ;;
  real_topk_probs <-
    mapM (fun i => ti <- getitem tgt i ;;
                   row <- getitem yhat i ;;
                   getitem row ti)
         (seq 0 (length yhat)) ;;
  pred <-
    mapM (fun i => sp <- getitem sorted_preds i ;;
                   let toks := map (convert_id_to_token self) (firstn topk sp) in
                   row <- getitem yhat i ;;
                   probs <- mapM (getitem row) (firstn topk sp) ;;
                   Ok (combine toks probs))
         (seq 0 (length yhat)) ;;
  Ok (combine real_topk_pos real_topk_probs, pred).

Definition postprocess_flags (token : pystr) : bool * bool * pystr :=
  let with_space := true in
  let with_break := pystr_eqb token (str "[SEP]") in
  if startswith token (str "##") then (false, with_break, skipn 2 token)
  else (with_space, with_break, token).

Definition postprocess (token : pystr) : pystr :=
  let '(with_space, with_break, token) := postprocess_flags token in
  let token := if with_space then chr_G_dot :: token else token in
  let token := if with_break then chr_C_dot :: token else token in
  token.

Definition check_probabilities (np : Numerics) (self : BERT)
    (in_text : pystr) (topk max_context batch_size : nat) : result Payload :=
  let in_text := bert_prep self in_text in
  let in_text := str "[CLS] " ++ in_text ++ str " [SEP]" in
  let tokenized_text := tokenize self in_text in
  let y_toks := map (convert_token_to_id self) tokenized_text in
  batches <- build_batches self y_toks max_context batch_size ;;
  scored <- mapM (score_batch np self topk max_context) batches ;;
  let real_topk := concat (map fst scored) in
  let pred_topk := concat (map snd scored) in
  let bpe_strings := map postprocess tokenized_text in
  let pred_topk :=
    map (fun pred => map (fun t => (postprocess (fst t), snd t)) pred) pred_topk in
  Ok {| bpe_strings := bpe_strings;
        real_topk := real_topk;
        pred_topk := pred_topk |}.

End BERTLM.

(** ** The checkers behind one interface

    The registry of the backend hands out one of the three classes by name;
    a [checker] is such a class together with its [self] and, for the masked
    checker, the two extra arguments of its [check_probabilities]. *)

Inductive causal_variant : Type := aragpt2_base | aragpt2_mega.

Definition causal_check (v : causal_variant)
  : Numerics -> GPT2 -> pystr -> nat -> result Payload :=
  match v with
  | aragpt2_base => AraGPT2Base.check_probabilities
  | aragpt2_mega => AraGPT2Mega.check_probabilities
  end.

Inductive checker : Type :=
| Causal (v : causal_variant) (self : GPT2)
| Masked (self : BERT) (max_context batch_size : nat).

Definition run (np : Numerics) (c : checker) (in_text : pystr) (topk : nat)
  : result Payload :=
  match c with
  | Causal v self => causal_check v np self in_text topk
  | Masked self max_context batch_size =>
      BERTLM.check_probabilities np self in_text topk max_context batch_size
  end.

(** The token ids of the input: [context[0]] and [y_toks]. *)
Definition token_ids (c : checker) (in_text : pystr) : list nat :=
  match c with
  | Causal _ self => enc_encode self (gpt2_prep self in_text)
  | Masked self _ _ =>
      map (convert_token_to_id self)
          (tokenize self (str "[CLS] " ++ bert_prep self in_text ++ str " [SEP]"))
  end.

(** The ground truth of the predicted positions: [y] in the causal checkers,
    the concatenation of [target_batches] in the masked one. Both are the
    token ids without the first one. *)
Definition targets (c : checker) (in_text : pystr) : list nat :=
  tl (token_ids c in_text).

(** The distribution [yhat[i]] that position [i] of the payload is ranked
    against. *)
Definition distribution (np : Numerics) (c : checker) (in_text : pystr)
    (i : nat) : result (list Q) :=
  match c with
  | Causal _ self =>
      logits <- gpt2_model self (token_ids c in_text) ;;
      getitem (map (softmax np) (removelast logits)) i
  | Masked self max_context _ =>
      w <- BERTLM.build_window self (token_ids c in_text) max_context i ;;
      out <- bert_model self w ;;
      logits <- getitem out (max_context + 1) ;;
      Ok (softmax np logits)
  end.

(** The two postprocessors, by tokenizer family. *)
Inductive family : Type := byte_level | continuation_marker.

Definition family_of (c : checker) : family :=
  match c with
  | Causal _ _ => byte_level
  | Masked _ _ _ => continuation_marker
  end.

Definition postprocess_flags (f : family) (token : pystr) : bool * bool * pystr :=
  match f with
  | byte_level => AraGPT2Base.postprocess_flags token
  | continuation_marker => BERTLM.postprocess_flags token
  end.

Definition postprocess (f : family) (token : pystr) : pystr :=
  match f with
  | byte_level => AraGPT2Base.postprocess token
  | continuation_marker => BERTLM.postprocess token
  end.

(** The prefixes a family's postprocessor reacts to. *)
Definition special_prefixes (f : family) : list pystr :=
  match f with
  | byte_level =>
      [[chr_G_dot]; [chr_a_circ]; [chr_C_dot];
       [chr_l_caron]; [chr_L_middot]; [chr_L_cedilla]]
  | continuation_marker => [str "##"]
  end.

Definition has_special_prefix (f : family) (token : pystr) : bool :=
  existsb (startswith token) (special_prefixes f).

(** ** Vocabulary of the properties *)

Definition prob_at (row : list Q) (j : nat) : Q := nth j row 0%Q.

Definition Qltb (x y : Q) : bool := negb (Qle_bool y x).

(** The number of vocabulary entries that score strictly more than [t]. *)
Definition count_greater (row : list Q) (t : nat) : nat :=
  length (filter (fun j => Qltb (prob_at row t) (prob_at row j))
                      (seq 0 (length row))).

(** The entries of a sorted order that come before [t]. *)
Fixpoint ahead_of (t : nat) (s : list nat) : list nat :=
  match s with
  | [] => []
  | h :: s' => if h =? t then [] else h :: ahead_of t s'
  end.

(** The number of entries that score the same as [t] and that the sorted
    order [s] places before [t]: the ties that the sort broke against [t]. *)
Definition ties_ahead (row : list Q) (s : list nat) (t : nat) : nat :=
  length (filter (fun j => Qeq_bool (prob_at row j) (prob_at row t))
                      (ahead_of t s)).

(** The contract of [numpy.argsort]: the indices of the row, in an order
    in which the values do not decrease. No stability is promised. *)
Definition sorts (a : list Q) (s : list nat) : Prop :=
  Permutation s (seq 0 (length a)) /\
  StronglySorted (fun x y => (prob_at a x <= prob_at a y)%Q) s.

Definition argsort_ok (np : Numerics) : Prop :=
  forall a, sorts a (argsort np a).

Definition softmax_ok (np : Numerics) : Prop :=
  forall a, length (softmax np a) = length a /\
            Forall (fun p => (0 <= p <= 1)%Q) (softmax np a).

(** A probability with at most five decimal places. *)
Definition five_decimals (p : Q) : Prop :=
  exists z : Z, (p == Qmake z 100000)%Q.

Fixpoint non_increasing (l : list Q) : Prop :=
  match l with
  | [] => True
  | p :: l' =>
      match l' with
      | [] => True
      | q :: _ => (q <= p)%Q /\ non_increasing l'
      end
  end.

(** The payload of a text without predicted positions. *)
Definition empty_payload : Payload :=
  {| bpe_strings := []; real_topk := []; pred_topk := [] |}.

(** What the checkers do to a probability before it enters the payload:
    the causal checkers round it, the masked checker does not. *)
Definition rounding (c : checker) : Q -> Q :=
  match c with
  | Causal _ _ => round5
  | Masked _ _ _ => fun x => x
  end.

(** [e] is the rank entry of the ground truth [t] against [row]. *)
Definition ranked (np : Numerics) (round : Q -> Q) (row : list Q) (t : nat)
    (e : nat * Q) : Prop :=
  where_first (argsort np (map Qopp row)) t = Ok (fst e) /\
  t < length row /\
  snd e = round (prob_at row t).

(** [pred] lists the first [topk] entries of the sorted order of [row]
    with their probabilities. *)
Definition alternatives_of (np : Numerics) (round : Q -> Q) (row : list Q)
    (topk : nat) (pred : list (pystr * Q)) : Prop :=
  let sp := firstn topk (argsort np (map Qopp row)) in
  length pred = length sp /\
  map snd pred = map (fun j => round (prob_at row j)) sp /\
  Forall (fun j => j < length row) sp.

(** Position [i] of [real_topk], and of [pred_topk], as the checker [c]
    computes it for [in_text]. *)
Definition entry_at (np : Numerics) (c : checker) (in_text : pystr)
    (i : nat) (e : nat * Q) : Prop :=
  exists row t,
    distribution np c in_text i = Ok row /\
    nth_error (targets c in_text) i = Some t /\
    ranked np (rounding c) row t e.

Definition alternatives_at (np : Numerics) (c : checker) (in_text : pystr)
    (topk i : nat) (pred : list (pystr * Q)) : Prop :=
  exists row,
    distribution np c in_text i = Ok row /\
    alternatives_of np (rounding c) row topk pred.

(** The contracts of the two models with their tokenizers, for a
    vocabulary of [V] entries: the forward pass returns one score vector
    of size [V] per input position, and every token id is below [V]. *)
Definition gpt2_ok (np : Numerics) (self : GPT2) (V : nat) : Prop :=
  (forall ctx, ctx <> [] ->
     exists logits,
       gpt2_model self ctx = Ok logits /\
       length logits = length ctx /\
       Forall (fun l => length (softmax np l) = V) logits) /\
  (forall j, j < V -> exists s, enc_decoder self j = Some s) /\
  (forall text, Forall (fun t => t < V) (enc_encode self text)).

Definition bert_ok (np : Numerics) (self : BERT) (V : nat) : Prop :=
  (forall w,
     exists out,
       bert_model self w = Ok out /\
       length out = length w /\
       Forall (fun l => length (softmax np l) = V) out) /\
  (forall token, convert_token_to_id self token < V).

(** A checker with a well-formed model on a text: the conditions under
    which [check_probabilities] returns, for a vocabulary of [V] entries. *)
Definition well_formed (np : Numerics) (c : checker) (in_text : pystr)
    (V : nat) : Prop :=
  match c with
  | Causal _ self => gpt2_ok np self V /\ token_ids c in_text <> []
  | Masked self R batch_size =>
      bert_ok np self V /\ 1 <= R /\ 0 < batch_size /\
      (length (token_ids c in_text) - 1) mod batch_size <> 0
  end.

(** [s] is the surface that the checker [c] shows for the token id [j]. *)
Definition surface_of (c : checker) (j : nat) (s : pystr) : Prop :=
  match c with
  | Causal _ self =>
      exists raw, enc_decoder self j = Some raw /\
                  s = AraGPT2Base.postprocess raw
  | Masked self _ _ => s = BERTLM.postprocess (convert_id_to_token self j)
  end.

(** [pred] lists the token ids [ids], each with its surface and with its
    probability in [row]. *)
Definition lists_ids (c : checker) (row : list Q) (ids : list nat)
    (pred : list (pystr * Q)) : Prop :=
  Forall2 (fun j a => surface_of c j (fst a) /\
                      snd a = rounding c (prob_at row j)) ids pred.

(** Position [i] of [pred_topk], with the token ids it lists. *)
Definition listed_at (np : Numerics) (c : checker) (in_text : pystr)
    (topk i : nat) (pred : list (pystr * Q)) : Prop :=
  exists row,
    distribution np c in_text i = Ok row /\
    lists_ids c row (firstn topk (argsort np (map Qopp row))) pred.

(** ** Closed forms used to state the windowing properties *)

(** The document with the target of window [m] replaced by the mask id. *)
Definition masked_ids (self : BERT) (y : list nat) (m : nat) : list nat :=
  firstn (m + 1) y ++ mask_tok self :: skipn (m + 2) y.

(** What [build_window] returns for the loop index [m]: the tokens
    [m - R .. hi - 1] of the masked document between the two paddings. *)
Definition window_of (self : BERT) (y : list nat) (R m : nat) : list nat :=
  let hi := Nat.min (length y - 1) (m + R + 1) in
  ConstantPad1d (R - m) (m + R + 1 - hi) (pad self)
                (slice (masked_ids self y m) (m - R) hi).

(** The loop indices [mask_index] of the group that starts at [min_ix]. *)
Definition group_indices (n batch_size min_ix : nat) : list nat :=
  seq min_ix (Nat.min (min_ix + batch_size) (n - 1) - min_ix).

(** The batch of the group that starts at [min_ix]: its windows and its
    targets. *)
Definition batch_of (self : BERT) (y : list nat) (R batch_size min_ix : nat)
  : list (list nat) * list nat :=
  (map (window_of self y R) (group_indices (length y) batch_size min_ix),
   map (fun m => nth (m + 1) y 0) (group_indices (length y) batch_size min_ix)).

(** The starts of the groups: the value of [range(0, n, batch_size)] for a
    positive [batch_size]. *)
Definition group_starts (n batch_size : nat) : list nat :=
  map (fun k => k * batch_size) (seq 0 ((n + batch_size - 1) / batch_size)).

(** ** A small model and tokenizer to run the checkers on *)

Module Toy.

Fixpoint insert_by (a : list Q) (i : nat) (s : list nat) : list nat :=
  match s with
  | [] => [i]
  | j :: s' =>
      if Qle_bool (prob_at a i) (prob_at a j) then i :: s
      else j :: insert_by a i s'
  end.

(** A stable argsort: insertion sort of the indices by their values. *)
Definition stable_argsort (a : list Q) : list nat :=
  fold_right (insert_by a) [] (seq 0 (length a)).

Definition Qsum (l : list Q) : Q := fold_right Qplus 0%Q l.

(** A softmax in base 2 on the integer parts of the scores. *)
Definition softmax2 (a : list Q) : list Q :=
  let w := map (fun x => Qpower 2 (Qfloor x)) a in
  map (fun x => (x / Qsum w)%Q) w.

Definition numerics : Numerics :=
  {| softmax := softmax2; argsort := stable_argsort |}.

(** Splitting at spaces, as a whitespace tokenizer does. *)
Fixpoint split_spaces (cur : pystr) (s : pystr) : list pystr :=
  match s with
  | [] => match cur with [] => [] | _ => [rev cur] end
  | c :: s' =>
      if N.eqb c 32 then
        match cur with
        | [] => split_spaces [] s'
        | _ => rev cur :: split_spaces [] s'
        end
      else split_spaces (c :: cur) s'
  end.

Definition vocabulary : list pystr :=
  [str "[PAD]"; str "[UNK]"; str "[CLS]"; str "[SEP]"; str "[MASK]";
   str "word"; str "##s"; chr_G_dot :: str "the"].

Fixpoint index_of (t : pystr) (v : list pystr) : option nat :=
  match v with
  | [] => None
  | h :: v' => if pystr_eqb h t then Some 0
               else option_map S (index_of t v')
  end.

Definition token_id (t : pystr) : nat :=
  match index_of t vocabulary with
  | Some i => i
  | None => 1
  end.

(** The scores of one position: they depend on the id at the position
    and on its left neighbour, and they have ties. *)
Definition scores (left here : nat) : list Q :=
  map (fun v => inject_Z (Z.of_nat ((v + left + 2 * here) mod 4)))
      (seq 0 (length vocabulary)).

Fixpoint forward (left : nat) (ids : list nat) : list (list Q) :=
  match ids with
  | [] => []
  | i :: ids' => scores left i :: forward i ids'
  end.

Definition bert : BERT :=
  {| bert_prep := fun s => s;
     tokenize := split_spaces [];
     convert_token_to_id := token_id;
     convert_id_to_token := fun i => nth i vocabulary (str "[UNK]");
     bert_model := fun w => Ok (forward 0 w);
     mask_tok := 4;
     pad := 0 |}.

(** A causal model over the same vocabulary, one token per word; as the
    transformer it stands for, it refuses an empty sequence. *)
Definition gpt2 : GPT2 :=
  {| gpt2_prep := fun s => s;
     enc_encode := fun s => map token_id (split_spaces [] s);
     enc_decoder := nth_error vocabulary;
     gpt2_model := fun ctx =>
       match ctx with
       | [] => Err (ModelError 0)
       | _ => Ok (forward 0 ctx)
       end |}.

(** The same model when the forward pass accepts an empty sequence. *)
Definition gpt2_lenient : GPT2 :=
  {| gpt2_prep := fun s => s;
     enc_encode := fun s => map token_id (split_spaces [] s);
     enc_decoder := nth_error vocabulary;
     gpt2_model := fun ctx => Ok (forward 0 ctx) |}.

(** The masked checker on a forward pass that is out of service. *)
Definition bert_failing : BERT :=
  {| bert_prep := fun s => s;
     tokenize := split_spaces [];
     convert_token_to_id := token_id;
     convert_id_to_token := fun i => nth i vocabulary (str "[UNK]");
     bert_model := fun _ => Err (ModelError 1);
     mask_tok := 4;
     pad := 0 |}.


(** The payloads of two runs, evaluated once. *)
Definition payload_masked : Payload :=
  Eval vm_compute in
    match run numerics (Masked bert 20 20) (str "word") 5 with
    | Ok p => p
    | Err _ => empty_payload
    end.

Definition payload_causal : Payload :=
  Eval vm_compute in
    match run numerics (Causal aragpt2_base gpt2) (str "word word the") 3 with
    | Ok p => p
    | Err _ => empty_payload
    end.

End Toy.

(** ** Sampling: [top_k_logits] and [sample_unconditional]

    [top_k_logits] is called by [sample_unconditional] only, on the scores
    of the last position of a batch of one sequence: its argument is taken
    as that one row, for which the comparison with [min_values] is the
    comparison of every score with the one threshold of the row. *)

Fixpoint insert_desc (x : Q) (l : list Q) : list Q :=
  match l with
  | [] => [x]
  | y :: l' => if Qle_bool y x then x :: l else y :: insert_desc x l'
  end.

(** The values of a row, largest first. *)
Definition sort_desc (l : list Q) : list Q := fold_right insert_desc [] l.

(** [torch.topk(row, k)[0]]: the [k] largest values, largest first; it
    raises when [k] exceeds the size of the row. *)
Definition torch_topk_values (row : list Q) (k : nat) : result (list Q) :=
  if k <=? length row then Ok (firstn k (sort_desc row))
  else Err RuntimeError.

(** The value that replaces a filtered score, [-1e10]. *)
Definition filtered_score : Q := - inject_Z 10000000000.

Definition top_k_logits (logits : list Q) (k : nat) : result (list Q) :=
  if k =? 0 then Ok logits
  else
    values <- torch_topk_values logits k ;;
    min_values <- getitem values (length values - 1) ;;
    Ok (map (fun x => if Qltb x min_values then filtered_score else x) logits).

(** The exceptions of [sample_unconditional]: beside those of the checkers,
    the lookup of an attribute that the object does not have. *)
Inductive sample_error : Type :=
| AttributeError
| Raised (e : error).

Inductive sample_result (A : Type) : Type :=
| Sampled (a : A)
| SampleErr (e : sample_error).

Arguments Sampled {A} a.
Arguments SampleErr {A} e.

Definition lift_result {A : Type} (r : result A) : sample_result A :=
  match r with
  | Ok a => Sampled a
  | Err e => SampleErr (Raised e)
  end.

(** What [sample_unconditional] uses of [self] beside the fields of the
    checker: the attribute [start_token], which an object may lack, the
    encoder dictionary, the forward pass with its cache [past], the
    decoder of a sequence, and the random draw of [torch.multinomial] with
    the state of its generator. *)
Record Sampler : Type := {
  Past : Type;
  Rng : Type;
  start_token : option pystr;                        (* self.start_token *)
  enc_encoder : pystr -> option nat;                 (* self.enc.encoder *)
  enc_decode : list nat -> pystr;                    (* self.enc.decode *)
  model_past : nat -> option Past -> result (list (list Q) * Past);
                                     (* self.model(prev, past=past), [0] *)
  multinomial : Rng -> list Q -> result (nat * Rng)
                                     (* torch.multinomial(probs, 1) *)
}.

(** The loop of [sample_unconditional], [n] turns from the state
    [(prev, output, past)]. The temperature is a non-zero rational. *)
Fixpoint sample_loop (np : Numerics) (self : Sampler) (n topk : nat)
    (temperature : Q) (prev : nat) (output : list nat)
    (past : option (Past self)) (rng : Rng self) : result (list nat) :=
  match n with
  | 0 => Ok output
  | S n' =>
      step <- model_past self prev past ;;
      let '(logits, past) := step in
      logits <- getitem logits (length logits - 1) ;;
      let logits := map (fun x => (x / temperature)%Q) logits in
      filtered <- top_k_logits logits topk ;;
      let probs := softmax np filtered in
      draw <- multinomial self rng probs ;;
      let '(prev, rng) := draw in
      sample_loop np self n' topk temperature prev (output ++ [prev])
                  (Some past) rng
  end.

(** The token ids that [sample_unconditional] decodes: [output[0]]. *)
Definition sample_ids (np : Numerics) (self : Sampler) (length topk : nat)
    (temperature : Q) (rng : Rng self) : sample_result (list nat) :=
  match start_token self with
  | None => SampleErr AttributeError
  | Some start =>
      match enc_encoder self start with
      | None => SampleErr (Raised KeyError)
      | Some context =>
          lift_result
            (sample_loop np self length topk temperature context [context]
                         None rng)
      end
  end.

Definition sample_unconditional (np : Numerics) (self : Sampler)
    (length topk : nat) (temperature : Q) (rng : Rng self)
  : sample_result pystr :=
  match sample_ids np self length topk temperature rng with
  | Sampled ids => Sampled (enc_decode self ids)
  | SampleErr e => SampleErr e
  end.

(** A small sampler: the scores of the small model, a draw that takes the
    first entry of the greatest probability, and a start token that has
    been assigned by hand. *)
Module ToySampler.

Fixpoint argmax_from (best : nat) (bestp : Q) (i : nat) (l : list Q) : nat :=
  match l with
  | [] => best
  | x :: l' =>
      if Qltb bestp x then argmax_from i x (S i) l'
      else argmax_from best bestp (S i) l'
  end.

Definition draw (g : nat) (probs : list Q) : result (nat * nat) :=
  match probs with
  | [] => Err RuntimeError
  | x :: l => Ok (argmax_from 0 x 1 l, S g)
  end.

(** A softmax in base 2 in which very negative scores underflow to 0, as
    they do in floating point. *)
Definition softmax_underflow (a : list Q) : list Q :=
  let w := map (fun x => if Qltb x (- inject_Z 64) then 0%Q
                         else Qpower 2 (Qfloor x)) a in
  map (fun x => (x / Toy.Qsum w)%Q) w.

Definition numerics : Numerics :=
  {| softmax := softmax_underflow; argsort := Toy.stable_argsort |}.

Definition sampler : Sampler :=
  {| Past := nat; Rng := nat;
     start_token := Some (str "[CLS]");
     enc_encoder := fun t => Toy.index_of t Toy.vocabulary;
     enc_decode := fun ids =>
       concat (map (fun i => nth i Toy.vocabulary (str "[UNK]")) ids);
     model_past := fun prev past =>
       Ok ([Toy.scores (match past with Some p => p | None => 0 end) prev],
           prev);
     multinomial := draw |}.

End ToySampler.

(** * Properties *)

(** ** The result monad *)

Lemma bind_Ok {A B : Type} (m : result A) (k : A -> result B) (b : B) :
  bind m k = Ok b -> exists a, m = Ok a /\ k a = Ok b.
Proof.
  destruct m as [a | e]; simpl; intros H.
  - exists a; split; [reflexivity | exact H].
  - discriminate H.
Qed.

Tactic Notation "inv_bind" hyp(H) "as" ident(x) ident(Hx) :=
  apply bind_Ok in H; destruct H as [x [Hx H]].

Lemma mapM_Forall2 {A B : Type} (f : A -> result B) (l : list A) (bs : list B) :
  mapM f l = Ok bs -> Forall2 (fun a b => f a = Ok b) l bs.
Proof.
  revert bs; induction l as [| a l IH]; simpl; intros bs H.
  - injection H as <-. constructor.
  - inv_bind H as b Hb. inv_bind H as bs' Hbs. injection H as <-.
    constructor; [assumption | apply IH; assumption].
Qed.

Lemma mapM_length {A B : Type} (f : A -> result B) (l : list A) (bs : list B) :
  mapM f l = Ok bs -> length bs = length l.
Proof.
  intros H. apply mapM_Forall2 in H.
  induction H; simpl; congruence.
Qed.

Lemma mapM_nth {A B : Type} (f : A -> result B) (l : list A) (bs : list B) :
  mapM f l = Ok bs ->
  forall i b, nth_error bs i = Some b ->
  exists a, nth_error l i = Some a /\ f a = Ok b.
Proof.
  intros H. apply mapM_Forall2 in H.
  induction H as [| a b l bs Hab _ IH]; intros [| i] b' Hb; simpl in *;
    try discriminate.
  - injection Hb as <-. exists a; auto.
  - apply IH; assumption.
Qed.

Lemma mapM_total {A B : Type} (f : A -> result B) (l : list A) :
  (forall a, In a l -> exists b, f a = Ok b) ->
  exists bs, mapM f l = Ok bs.
Proof.
  induction l as [| a l IH]; simpl; intros H.
  - exists []; reflexivity.
  - destruct (H a (or_introl eq_refl)) as [b Hb].
    destruct IH as [bs Hbs]; [intros; apply H; auto |].
    exists (b :: bs). rewrite Hb; simpl. rewrite Hbs; reflexivity.
Qed.

Lemma mapM_ext {A B : Type} (f g : A -> result B) (l : list A) :
  (forall a, In a l -> f a = g a) -> mapM f l = mapM g l.
Proof.
  induction l as [| a l IH]; simpl; intros H; [reflexivity |].
  rewrite (H a (or_introl eq_refl)), IH; [reflexivity |].
  intros; apply H; auto.
Qed.

Lemma mapM_pure {A B : Type} (f : A -> B) (l : list A) :
  mapM (fun a => Ok (f a)) l = Ok (map f l).
Proof.
  induction l as [| a l IH]; simpl; [reflexivity |].
  rewrite IH; reflexivity.
Qed.

(** On the positions [0 .. n-1] the comprehension has one result per
    position. *)
Lemma mapM_seq_nth {B : Type} (f : nat -> result B) (n : nat) (bs : list B) :
  mapM f (seq 0 n) = Ok bs ->
  length bs = n /\ forall i, i < n -> exists b, nth_error bs i = Some b /\ f i = Ok b.
Proof.
  intros H. pose proof (mapM_length _ _ _ H) as Hlen.
  rewrite length_seq in Hlen. split; [exact Hlen |].
  intros i Hi.
  destruct (nth_error bs i) as [b |] eqn:Hb.
  - exists b; split; [reflexivity |].
    destruct (mapM_nth _ _ _ H i b Hb) as [a [Ha Hf]].
    rewrite nth_error_seq in Ha.
    destruct (Nat.ltb_spec i n); [| lia].
    injection Ha as <-. exact Hf.
  - apply nth_error_None in Hb. lia.
Qed.

(** ** Python sequences *)

Lemma getitem_Ok {A : Type} (l : list A) (i : nat) (a : A) :
  getitem l i = Ok a <-> nth_error l i = Some a.
Proof.
  unfold getitem. destruct (nth_error l i); simpl; split; congruence.
Qed.

Lemma getitem_lt {A : Type} (l : list A) (i : nat) :
  i < length l -> exists a, getitem l i = Ok a.
Proof.
  intros H. unfold getitem.
  destruct (nth_error l i) as [a |] eqn:E; [exists a; reflexivity |].
  apply nth_error_None in E. lia.
Qed.

Lemma setitem_Ok {A : Type} (l : list A) (i : nat) (v : A) :
  i < length l ->
  setitem l i v = Ok (firstn i l ++ v :: skipn (S i) l).
Proof.
  revert i; induction l as [| a l IH]; intros [| i] H; simpl in *; try lia.
  - reflexivity.
  - rewrite IH by lia. reflexivity.
Qed.

Lemma setitem_Err {A : Type} (l : list A) (i : nat) (v : A) :
  length l <= i -> setitem l i v = Err IndexError.
Proof.
  revert i; induction l as [| a l IH]; intros [| i] H; simpl in *;
    try reflexivity; try lia.
  rewrite IH by lia. reflexivity.
Qed.

Lemma firstn_In {A : Type} (k : nat) (l : list A) (x : A) :
  In x (firstn k l) -> In x l.
Proof.
  revert k; induction l as [| a l IH]; intros [| k]; simpl; try tauto.
  intros [H | H]; [left; exact H | right; eapply IH; exact H].
Qed.

Lemma length_slice {A : Type} (l : list A) (lo hi : nat) :
  hi <= length l -> length (slice l lo hi) = hi - lo.
Proof.
  intros H. unfold slice. rewrite length_firstn, length_skipn. lia.
Qed.

Lemma nth_error_slice {A : Type} (l : list A) (lo hi i : nat) :
  i < hi - lo -> nth_error (slice l lo hi) i = nth_error l (lo + i).
Proof.
  intros H. unfold slice.
  rewrite nth_error_firstn.
  destruct (Nat.ltb_spec i (hi - lo)); [| lia].
  apply nth_error_skipn.
Qed.

Lemma length_ConstantPad1d {A : Type} (left right : nat) (v : A) (l : list A) :
  length (ConstantPad1d left right v l) = left + length l + right.
Proof.
  unfold ConstantPad1d. rewrite !length_app, !repeat_length. lia.
Qed.

Lemma where_first_Ok (a : list nat) (x r : nat) :
  where_first a x = Ok r <->
  nth_error a r = Some x /\ forall k y, k < r -> nth_error a k = Some y -> y <> x.
Proof.
  revert r; induction a as [| h a IH]; intros r; simpl.
  - split; [discriminate |]. intros [H _]. destruct r; discriminate.
  - destruct (Nat.eqb_spec h x) as [-> | Hne].
    + split.
      * intros H; injection H as <-. split; [reflexivity |]. intros; lia.
      * intros [H Hmin]. destruct r as [| r]; [reflexivity |].
        exfalso. apply (Hmin 0 x); [lia | reflexivity | reflexivity].
    + split.
      * intros H. inv_bind H as r' Hr'. injection H as <-.
        apply IH in Hr'. destruct Hr' as [Hn Hmin]. split; [exact Hn |].
        intros [| k] y Hk Hy; simpl in Hy.
        -- injection Hy as <-. exact Hne.
        -- apply (Hmin k); [lia | exact Hy].
      * intros [H Hmin]. destruct r as [| r]; simpl in H.
        -- injection H as ->. contradiction.
        -- assert (Hr : where_first a x = Ok r).
           { apply IH. split; [exact H |].
             intros k y Hk Hy. apply (Hmin (S k)); [lia | exact Hy]. }
           rewrite Hr. reflexivity.
Qed.

Lemma where_first_In (a : list nat) (x : nat) :
  In x a -> exists r, where_first a x = Ok r.
Proof.
  induction a as [| h a IH]; simpl; intros H; [contradiction |].
  destruct (Nat.eqb_spec h x) as [-> | Hne]; [exists 0; reflexivity |].
  destruct H as [H | H]; [contradiction |].
  destruct (IH H) as [r Hr]. exists (S r). rewrite Hr; reflexivity.
Qed.

Lemma where_first_ahead (a : list nat) (x r : nat) :
  where_first a x = Ok r -> ahead_of x a = firstn r a.
Proof.
  revert r; induction a as [| h a IH]; intros r; simpl; [discriminate |].
  destruct (Nat.eqb_spec h x) as [-> | Hne]; intros H.
  - injection H as <-. reflexivity.
  - inv_bind H as r' Hr'. injection H as <-. simpl. f_equal.
    apply IH; assumption.
Qed.

Lemma py_range_Ok (stop step : nat) :
  0 < step ->
  py_range stop step =
    Ok (map (fun k => k * step) (seq 0 ((stop + step - 1) / step))).
Proof.
  destruct step; [lia | reflexivity].
Qed.

(** ** Rounding to five decimals *)

Lemma round_half_even_cases (x : Q) :
  round_half_even x = Qfloor x \/ round_half_even x = (Qfloor x + 1)%Z.
Proof.
  unfold round_half_even.
  destruct (Qcompare _ _); [destruct (Z.even _) | |]; auto.
Qed.

Lemma round_half_even_mono (x y : Q) :
  (x <= y)%Q -> (round_half_even x <= round_half_even y)%Z.
Proof.
  intros Hxy.
  pose proof (Qfloor_resp_le x y Hxy) as Hf.
  destruct (Z.eq_dec (Qfloor x) (Qfloor y)) as [E | NE].
  - unfold round_half_even. rewrite <- E.
    destruct (Qcompare_spec (x - inject_Z (Qfloor x)) (1 # 2)) as [Hx | Hx | Hx];
      destruct (Qcompare_spec (y - inject_Z (Qfloor x)) (1 # 2)) as [Hy | Hy | Hy];
      try lia; try (destruct (Z.even (Qfloor x)); lia); exfalso; lra.
  - destruct (round_half_even_cases x) as [-> | ->];
      destruct (round_half_even_cases y) as [-> | ->]; lia.
Qed.

Lemma round5_mono (x y : Q) : (x <= y)%Q -> (round5 x <= round5 y)%Q.
Proof.
  intros H. unfold round5, Qle; simpl.
  apply Z.mul_le_mono_nonneg_r; [lia |].
  apply round_half_even_mono.
  apply Qmult_le_compat_r; [exact H | unfold Qle; simpl; lia].
Qed.

Lemma round5_range (p : Q) : (0 <= p <= 1)%Q -> (0 <= round5 p <= 1)%Q.
Proof.
  intros [H0 H1]. split.
  - apply Qle_trans with (round5 0); [vm_compute; discriminate |].
    apply round5_mono; exact H0.
  - apply Qle_trans with (round5 1); [| vm_compute; discriminate].
    apply round5_mono; exact H1.
Qed.

Lemma round5_five_decimals (x : Q) : five_decimals (round5 x).
Proof.
  exists (round_half_even (x * inject_Z 100000)). reflexivity.
Qed.

(** ** The two postprocessors *)

(** After its constructor the second causal class is the first one. *)
Lemma mega_postprocess_as_base (token : pystr) :
  AraGPT2Mega.postprocess token = AraGPT2Base.postprocess token.
Proof. reflexivity. Qed.

Lemma mega_check_as_base (np : Numerics) (self : GPT2) (in_text : pystr)
    (topk : nat) :
  AraGPT2Mega.check_probabilities np self in_text topk =
  AraGPT2Base.check_probabilities np self in_text topk.
Proof. reflexivity. Qed.

Lemma causal_check_as_base (v : causal_variant) :
  causal_check v = AraGPT2Base.check_probabilities.
Proof. destruct v; reflexivity. Qed.

(** The default of the masked checker's postprocessor: a token that is not
    a continuation gets the leading-space marker. *)
Lemma BERTLM_postprocess_default (token : pystr) :
  startswith token (str "##") = false ->
  token <> str "[SEP]" ->
  BERTLM.postprocess token = chr_G_dot :: token.
Proof.
  intros Hp Hs. unfold BERTLM.postprocess, BERTLM.postprocess_flags.
  rewrite Hp. unfold pystr_eqb.
  destruct (list_eq_dec N.eq_dec token (str "[SEP]")); [contradiction |].
  reflexivity.
Qed.

(** ** The rank of a token in a sorted order *)

Lemma prob_at_opp (row : list Q) (x : nat) :
  prob_at (map Qopp row) x = Qopp (prob_at row x).
Proof. exact (map_nth Qopp row 0%Q x). Qed.

Lemma Permutation_filter_length {A : Type} (f : A -> bool) (l l' : list A) :
  Permutation l l' -> length (filter f l) = length (filter f l').
Proof.
  induction 1; simpl; repeat (destruct (f _); simpl); congruence.
Qed.

Lemma StronglySorted_middle {A : Type} (R : A -> A -> Prop)
    (l1 l2 : list A) (x : A) :
  StronglySorted R (l1 ++ x :: l2) ->
  Forall (fun y => R y x) l1 /\ Forall (R x) l2.
Proof.
  induction l1 as [| a l1 IH]; simpl; intros H;
    apply StronglySorted_inv in H; destruct H as [Hs Hf].
  - split; [constructor | exact Hf].
  - destruct (IH Hs) as [H1 H2]. split; [| exact H2].
    constructor; [| exact H1].
    rewrite Forall_forall in Hf. apply Hf, in_or_app; right; left; reflexivity.
Qed.

Lemma filter_none {A : Type} (f : A -> bool) (l : list A) :
  (forall x, In x l -> f x = false) -> filter f l = [].
Proof.
  induction l as [| a l IH]; simpl; intros H; [reflexivity |].
  rewrite (H a (or_introl eq_refl)). apply IH. intros; apply H; auto.
Qed.

Lemma Qltb_lt (x y : Q) : Qltb x y = true <-> (x < y)%Q.
Proof.
  unfold Qltb. rewrite negb_true_iff, <- not_true_iff_false, Qle_bool_iff.
  split; [apply Qnot_le_lt | apply Qlt_not_le].
Qed.

Lemma Qltb_ge (x y : Q) : Qltb x y = false <-> (y <= x)%Q.
Proof.
  unfold Qltb. rewrite negb_false_iff. apply Qle_bool_iff.
Qed.

Lemma nth_error_split_at {A : Type} (l : list A) (i : nat) (a : A) :
  nth_error l i = Some a -> l = firstn i l ++ a :: skipn (S i) l.
Proof.
  revert i; induction l as [| b l IH]; intros [| i] H; simpl in *;
    try discriminate.
  - injection H as ->. reflexivity.
  - f_equal. apply IH; exact H.
Qed.

Section Rank.

Variable row : list Q.
Variable s : list nat.
Variables t r : nat.
Hypothesis Hsorts : sorts (map Qopp row) s.
Hypothesis Hrank : where_first s t = Ok r.

Lemma rank_length : length s = length row.
Proof.
  destruct Hsorts as [Hp _].
  apply Permutation_length in Hp.
  rewrite length_seq, length_map in Hp. exact Hp.
Qed.

Lemma rank_lt : r < length row.
Proof.
  rewrite <- rank_length.
  apply where_first_Ok in Hrank. destruct Hrank as [Hn _].
  apply nth_error_Some. congruence.
Qed.

Lemma rank_split : s = ahead_of t s ++ t :: skipn (S r) s.
Proof.
  rewrite (where_first_ahead _ _ _ Hrank).
  apply nth_error_split_at.
  apply where_first_Ok in Hrank. tauto.
Qed.

Lemma rank_is_ahead : r = length (ahead_of t s).
Proof.
  rewrite (where_first_ahead _ _ _ Hrank), length_firstn.
  pose proof rank_lt. pose proof rank_length. lia.
Qed.

Lemma ahead_ge (x : nat) :
  In x (ahead_of t s) -> (prob_at row t <= prob_at row x)%Q.
Proof.
  intros Hx. destruct Hsorts as [_ Hs].
  rewrite rank_split in Hs. apply StronglySorted_middle in Hs.
  destruct Hs as [H1 _]. rewrite Forall_forall in H1.
  specialize (H1 x Hx). rewrite !prob_at_opp in H1.
  apply Qopp_le_compat in H1. rewrite !Qopp_involutive in H1. exact H1.
Qed.

Lemma behind_le (x : nat) :
  In x (skipn (S r) s) -> (prob_at row x <= prob_at row t)%Q.
Proof.
  intros Hx. destruct Hsorts as [_ Hs].
  rewrite rank_split in Hs. apply StronglySorted_middle in Hs.
  destruct Hs as [_ H2]. rewrite Forall_forall in H2.
  specialize (H2 x Hx). rewrite !prob_at_opp in H2.
  apply Qopp_le_compat in H2. rewrite !Qopp_involutive in H2. exact H2.
Qed.

(** The rank counts the entries that score more, and the ties that the
    sort placed first. *)
Lemma rank_count : r = count_greater row t + ties_ahead row s t.
Proof.
  unfold count_greater, ties_ahead.
  set (gt := fun j => Qltb (prob_at row t) (prob_at row j)).
  assert (Hperm : length (filter gt (seq 0 (length row))) =
                  length (filter gt s)).
  { symmetry. apply Permutation_filter_length.
    destruct Hsorts as [Hp _]. rewrite length_map in Hp. exact Hp. }
  rewrite Hperm.
  replace (filter gt s)
    with (filter gt (ahead_of t s ++ t :: skipn (S r) s))
    by (rewrite <- rank_split; reflexivity).
  rewrite filter_app. cbn [filter].
  assert (Ht : gt t = false) by (apply Qltb_ge; apply Qle_refl).
  rewrite Ht.
  rewrite (filter_none gt (skipn (S r) s))
    by (intros x Hx; apply Qltb_ge, behind_le; exact Hx).
  rewrite app_nil_r.
  rewrite (filter_ext_in
             (fun j => Qeq_bool (prob_at row j) (prob_at row t))
             (fun j => negb (gt j))).
  - rewrite rank_is_ahead at 1. symmetry. apply filter_length.
  - intros x Hx. apply ahead_ge in Hx. unfold gt.
    destruct (Qeq_bool _ _) eqn:E1; destruct (Qltb _ _) eqn:E2;
      try reflexivity; exfalso.
    + apply Qeq_bool_iff in E1. apply Qltb_lt in E2. lra.
    + apply Qltb_ge in E2.
      assert (E : (prob_at row x == prob_at row t)%Q) by lra.
      apply Qeq_bool_iff in E. congruence.
Qed.

(** Rank 0: nothing scores more, and no tie was placed first. *)
Lemma rank_zero_iff :
  r = 0 <-> count_greater row t = 0 /\ ties_ahead row s t = 0.
Proof. pose proof rank_count. lia. Qed.


End Rank.


(** ** The small numerics meet the contracts *)

Section StableArgsort.

Variable a : list Q.

Let R (x y : nat) : Prop := (prob_at a x <= prob_at a y)%Q.

Lemma insert_by_perm (i : nat) (s : list nat) :
  Permutation (Toy.insert_by a i s) (i :: s).
Proof.
  induction s as [| j s IH]; simpl; [reflexivity |].
  destruct (Qle_bool _ _); [reflexivity |].
  rewrite IH. apply perm_swap.
Qed.

Lemma insert_by_sorted (i : nat) (s : list nat) :
  StronglySorted R s -> StronglySorted R (Toy.insert_by a i s).
Proof.
  induction s as [| j s IH]; simpl; intros Hs.
  - repeat constructor.
  - apply StronglySorted_inv in Hs. destruct Hs as [Hs Hj].
    destruct (Qle_bool (prob_at a i) (prob_at a j)) eqn:E.
    + apply Qle_bool_iff in E.
      constructor; [constructor; assumption |].
      constructor; [exact E |].
      rewrite Forall_forall in *. intros y Hy.
      unfold R in *. apply Qle_trans with (prob_at a j); auto.
    + constructor; [apply IH; exact Hs |].
      assert (Hji : R j i).
      { unfold R. apply Qlt_le_weak, Qnot_le_lt.
        intros H. apply Qle_bool_iff in H. congruence. }
      rewrite Forall_forall in *. intros y Hy.
      apply (Permutation_in _ (insert_by_perm i s)) in Hy.
      destruct Hy as [<- | Hy]; auto.
Qed.

Lemma fold_insert_perm (l : list nat) :
  Permutation (fold_right (Toy.insert_by a) [] l) l.
Proof.
  induction l as [| i l IH]; simpl; [reflexivity |].
  rewrite insert_by_perm, IH. reflexivity.
Qed.

Lemma fold_insert_sorted (l : list nat) :
  StronglySorted R (fold_right (Toy.insert_by a) [] l).
Proof.
  induction l as [| i l IH]; simpl; [constructor |].
  apply insert_by_sorted; exact IH.
Qed.

Lemma stable_argsort_sorts : sorts a (Toy.stable_argsort a).
Proof.
  split; [apply fold_insert_perm | apply fold_insert_sorted].
Qed.

End StableArgsort.

Lemma toy_argsort_ok : argsort_ok Toy.numerics.
Proof. intros a. apply stable_argsort_sorts. Qed.

Lemma Qsum_nonneg (w : list Q) :
  Forall (fun x => (0 <= x)%Q) w -> (0 <= Toy.Qsum w)%Q.
Proof.
  induction 1 as [| x w Hx _ IH]; simpl; [apply Qle_refl | lra].
Qed.

Lemma Qsum_member (w : list Q) (x : Q) :
  Forall (fun y => (0 <= y)%Q) w -> In x w -> (x <= Toy.Qsum w)%Q.
Proof.
  induction 1 as [| y w Hy Hw IH]; simpl; intros Hin; [contradiction |].
  pose proof (Qsum_nonneg w Hw).
  destruct Hin as [-> | Hin]; [lra |].
  specialize (IH Hin). lra.
Qed.

Lemma toy_softmax_ok : softmax_ok Toy.numerics.
Proof.
  intros a. simpl. unfold Toy.softmax2.
  set (w := map (fun x => Qpower 2 (Qfloor x)) a).
  split; [unfold w; rewrite !length_map; reflexivity |].
  assert (Hpos : Forall (fun x => (0 < x)%Q) w).
  { unfold w. apply Forall_forall. intros x Hx.
    apply in_map_iff in Hx. destruct Hx as [y [<- _]].
    apply Qpower_0_lt. reflexivity. }
  assert (Hnn : Forall (fun x => (0 <= x)%Q) w).
  { eapply Forall_impl; [| exact Hpos]. intros; apply Qlt_le_weak; auto. }
  apply Forall_forall. intros p Hp.
  apply in_map_iff in Hp. destruct Hp as [x [<- Hx]].
  pose proof (Qsum_member w x Hnn Hx) as Hle.
  rewrite Forall_forall in Hpos. specialize (Hpos x Hx).
  assert (Hs : (0 < Toy.Qsum w)%Q) by lra.
  split.
  - apply Qle_shift_div_l; [exact Hs | lra].
  - apply Qle_shift_div_r; [exact Hs | lra].
Qed.

(** ** Zips and gathers *)

Lemma nth_error_combine {A B : Type} (l : list A) (l' : list B) (i : nat)
    (a : A) (b : B) :
  nth_error (combine l l') i = Some (a, b) <->
  nth_error l i = Some a /\ nth_error l' i = Some b.
Proof.
  revert l' i; induction l as [| x l IH]; intros [| y l'] [| i]; simpl;
    try (split; [discriminate | intros [? ?]; discriminate]).
  - split; [intros H; injection H as -> ->; auto |].
    intros [H1 H2]; congruence.
  - apply IH.
Qed.

Lemma map_snd_combine {A B : Type} (l : list A) (l' : list B) :
  length l = length l' -> map snd (combine l l') = l'.
Proof.
  revert l'; induction l as [| x l IH]; intros [| y l']; simpl;
    try discriminate; try reflexivity.
  intros H. f_equal. apply IH. lia.
Qed.

(** [row[idx]] for an array of indices: all of them must be in range. *)
Lemma mapM_getitem (row : list Q) (idx : list nat) (ps : list Q) :
  mapM (getitem row) idx = Ok ps ->
  ps = map (prob_at row) idx /\ Forall (fun j => j < length row) idx.
Proof.
  revert ps; induction idx as [| j idx IH]; simpl; intros ps H.
  - injection H as <-. split; constructor.
  - inv_bind H as pj Hpj. inv_bind H as ps' Hps. injection H as <-.
    destruct (IH _ Hps) as [-> Hall].
    apply getitem_Ok in Hpj.
    split.
    + f_equal. unfold prob_at. symmetry. apply nth_error_nth; exact Hpj.
    + constructor; [| exact Hall]. apply nth_error_Some. congruence.
Qed.

Lemma mapM_getitem_total (row : list Q) (idx : list nat) :
  Forall (fun j => j < length row) idx ->
  mapM (getitem row) idx = Ok (map (prob_at row) idx).
Proof.
  induction 1 as [| j idx Hj _ IH]; simpl; [reflexivity |].
  unfold getitem at 1. rewrite (nth_error_nth' row 0%Q Hj). simpl.
  rewrite IH. reflexivity.
Qed.

(** ** What a payload of the causal checker is made of *)

Section CausalPayload.

Variable np : Numerics.
Variable self : GPT2.
Variable in_text : pystr.
Variable topk : nat.
Variable p : Payload.

Let context : list nat := enc_encode self (gpt2_prep self in_text).

Hypothesis Hrun :
  AraGPT2Base.check_probabilities np self in_text topk = Ok p.

Lemma causal_payload :
  exists logits,
    gpt2_model self context = Ok logits /\
    let yhat := map (softmax np) (removelast logits) in
    length (bpe_strings p) = length context /\
    length (real_topk p) = length (tl context) /\
    length (pred_topk p) = length (tl context) /\
    (forall i rank prob,
        nth_error (real_topk p) i = Some (rank, prob) ->
        exists row t,
          nth_error yhat i = Some row /\
          nth_error (tl context) i = Some t /\
          where_first (argsort np (map Qopp row)) t = Ok rank /\
          t < length row /\
          prob = round5 (prob_at row t)) /\
    (forall i pred,
        nth_error (pred_topk p) i = Some pred ->
        exists row toks,
          nth_error yhat i = Some row /\
          let sp := firstn topk (argsort np (map Qopp row)) in
          length toks = length sp /\
          Forall (fun j => j < length row) sp /\
          pred = combine (map AraGPT2Base.postprocess toks)
                         (map (fun j => round5 (prob_at row j)) sp)).
Proof.
  pose proof Hrun as H. unfold AraGPT2Base.check_probabilities in H.
  fold context in H.
  inv_bind H as logits Hlogits. exists logits. split; [exact Hlogits |].
  cbv zeta.
  set (yhat := map (softmax np) (removelast logits)) in *.
  set (sorted_preds := map (fun row => argsort np (map Qopp row)) yhat) in *.
  inv_bind H as pos Hpos. inv_bind H as probs Hprobs.
  inv_bind H as strs Hstrs. inv_bind H as preds Hpreds.
  injection H as <-. simpl.
  destruct (mapM_seq_nth _ _ _ Hpos) as [Lpos Npos].
  destruct (mapM_seq_nth _ _ _ Hprobs) as [Lprobs Nprobs].
  destruct (mapM_seq_nth _ _ _ Hpreds) as [Lpreds Npreds].
  repeat split.
  - rewrite length_map. apply (mapM_length _ _ _ Hstrs).
  - rewrite length_combine, length_map. lia.
  - rewrite length_map. exact Lpreds.
  - intros i rank prob Hi.
    apply nth_error_combine in Hi. destruct Hi as [Hr Hp].
    assert (Hlt : i < length (tl context)).
    { rewrite <- Lpos. apply nth_error_Some. congruence. }
    destruct (Npos i Hlt) as [rank' [Hr' Hf]].
    rewrite Hr in Hr'. injection Hr' as <-.
    inv_bind Hf as sp Hsp. inv_bind Hf as yi Hyi.
    destruct (Nprobs i Hlt) as [pr [Hpr Hg]].
    inv_bind Hg as yi' Hyi'. inv_bind Hg as row Hrow.
    rewrite Hyi in Hyi'. injection Hyi' as <-.
    apply getitem_Ok in Hsp, Hyi, Hrow, Hg.
    unfold sorted_preds in Hsp. rewrite nth_error_map, Hrow in Hsp.
    simpl in Hsp. injection Hsp as <-.
    exists row, yi. repeat split; try assumption.
    + apply nth_error_Some. congruence.
    + rewrite nth_error_map, Hpr in Hp. simpl in Hp. injection Hp as <-.
      f_equal. unfold prob_at. symmetry. apply nth_error_nth; exact Hg.
  - intros i pred Hi.
    rewrite nth_error_map in Hi.
    destruct (nth_error preds i) as [pred0 |] eqn:Hpred0;
      simpl in Hi; [| discriminate].
    injection Hi as <-.
    assert (Hlt : i < length (tl context)).
    { rewrite <- Lpreds. apply nth_error_Some. congruence. }
    destruct (Npreds i Hlt) as [pred1 [Hpred1 Hf]].
    rewrite Hpred0 in Hpred1. injection Hpred1 as <-.
    inv_bind Hf as sp Hsp. inv_bind Hf as toks Htoks.
    inv_bind Hf as row Hrow. inv_bind Hf as probs' Hprobs'.
    injection Hf as <-.
    apply getitem_Ok in Hsp, Hrow.
    unfold sorted_preds in Hsp. rewrite nth_error_map, Hrow in Hsp.
    simpl in Hsp. injection Hsp as <-.
    destruct (mapM_getitem _ _ _ Hprobs') as [-> Hall].
    exists row, toks. repeat split.
    + exact Hrow.
    + apply (mapM_length _ _ _ Htoks).
    + exact Hall.
    + rewrite map_map.
      set (sp := firstn topk (argsort np (map Qopp row))).
      assert (Hlen : length toks = length sp)
        by apply (mapM_length _ _ _ Htoks).
      clearbody sp. clear - Hlen. revert sp Hlen.
      induction toks as [| tk toks IH]; intros [| j sp] Hlen;
        simpl in *; try discriminate; try reflexivity.
      f_equal. apply IH. lia.
Qed.

End CausalPayload.

(** ** The windows of the masked checker *)

Section Windows.

Variable self : BERT.
Variable y : list nat.
Variable R : nat.

Lemma length_masked_ids (m : nat) :
  m + 1 < length y -> length (masked_ids self y m) = length y.
Proof.
  intros H. unfold masked_ids.
  rewrite length_app, length_firstn. simpl. rewrite length_skipn. lia.
Qed.

Lemma nth_error_masked_ids_mask (m : nat) :
  m + 1 < length y ->
  nth_error (masked_ids self y m) (m + 1) = Some (mask_tok self).
Proof.
  intros H. unfold masked_ids.
  rewrite nth_error_app2; rewrite length_firstn; [| lia].
  replace (m + 1 - Nat.min (m + 1) (length y)) with 0 by lia.
  reflexivity.
Qed.

(** [build_window] never raises inside the loop, and returns the closed
    form in each of its four branches. *)
Lemma build_window_Ok (m : nat) :
  m + 1 < length y ->
  BERTLM.build_window self y R m = Ok (window_of self y R m).
Proof.
  intros H. unfold BERTLM.build_window.
  rewrite setitem_Ok by exact H. cbn [bind].
  replace (S (m + 1)) with (m + 2) by lia.
  fold (masked_ids self y m).
  rewrite (length_masked_ids m H).
  rewrite Nat.max_0_l.
  set (hi := Nat.min (length y - 1) (m + R + 1)).
  rewrite length_slice by (rewrite length_masked_ids by exact H; lia).
  unfold window_of. fold hi.
  assert (Hhi : m + 1 <= hi) by lia.
  destruct (Nat.eqb_spec (m - R) 0) as [Hlo | Hlo];
    destruct (Nat.eqb_spec hi (length y - 1)) as [Hup | Hup];
    cbn [andb]; f_equal.
  - f_equal; lia.
  - f_equal; lia.
  - f_equal; lia.
  - replace (R - m) with 0 by lia.
    replace (m + R + 1 - hi) with 0 by lia.
    unfold ConstantPad1d. simpl. rewrite app_nil_r. reflexivity.
Qed.

Lemma length_window_of (m : nat) :
  m + 1 < length y -> length (window_of self y R m) = 2 * R + 1.
Proof.
  intros H. unfold window_of.
  rewrite length_ConstantPad1d, length_slice
    by (rewrite length_masked_ids by exact H; lia).
  lia.
Qed.

(** The mask sits one past the middle of the window, unless the target
    is the last token of the document. *)
Lemma window_of_mask (m : nat) :
  1 <= R -> m + 2 < length y ->
  nth_error (window_of self y R m) (R + 1) = Some (mask_tok self).
Proof.
  intros HR H. unfold window_of, ConstantPad1d.
  set (hi := Nat.min (length y - 1) (m + R + 1)).
  rewrite nth_error_app2 by (rewrite repeat_length; lia).
  rewrite repeat_length.
  rewrite nth_error_app1
    by (rewrite length_slice;
        [lia | rewrite length_masked_ids by lia; lia]).
  rewrite nth_error_slice by lia.
  replace (m - R + (R + 1 - (R - m))) with (m + 1) by lia.
  apply nth_error_masked_ids_mask. lia.
Qed.

(** The window of the last token of the document: the slice stops before
    the mask, and the offset that is read holds a pad id. *)
Lemma window_of_last (m : nat) :
  1 <= R -> m + 2 = length y ->
  window_of self y R m =
    repeat (pad self) (R - m) ++ slice y (m - R) (m + 1)
      ++ repeat (pad self) R /\
  nth_error (window_of self y R m) (R + 1) = Some (pad self).
Proof.
  intros HR H.
  assert (E : window_of self y R m =
              repeat (pad self) (R - m) ++ slice y (m - R) (m + 1)
                ++ repeat (pad self) R).
  { unfold window_of, ConstantPad1d.
    replace (Nat.min (length y - 1) (m + R + 1)) with (m + 1) by lia.
    replace (m + R + 1 - (m + 1)) with R by lia.
    f_equal. f_equal.
    unfold slice, masked_ids.
    destruct (Nat.le_gt_cases (m - R) (m + 1)) as [Hle | Hgt]; [| lia].
    rewrite skipn_app, length_firstn.
    replace (m - R - Nat.min (m + 1) (length y)) with 0 by lia.
    rewrite skipn_O.
    rewrite firstn_app, length_skipn, length_firstn.
    replace (m + 1 - (m - R) - (Nat.min (m + 1) (length y) - (m - R)))
      with 0 by lia.
    rewrite firstn_O, app_nil_r.
    rewrite skipn_firstn_comm. rewrite firstn_firstn.
    f_equal. lia. }
  split; [exact E |].
  rewrite E.
  assert (Hs : length (slice y (m - R) (m + 1)) = m + 1 - (m - R))
    by (apply length_slice; lia).
  rewrite nth_error_app2 by (rewrite repeat_length; lia).
  rewrite nth_error_app2 by (rewrite repeat_length, Hs; lia).
  rewrite repeat_length, Hs.
  apply nth_error_repeat. lia.
Qed.

(** Near the start of a long document the left padding has [R - m] pad
    ids, and the tokens [0 .. m + R] of the masked document follow. *)
Lemma window_of_left_deficient (m : nat) :
  m < R -> 2 * R + 1 < length y ->
  window_of self y R m =
    repeat (pad self) (R - m) ++ firstn (m + R + 1) (masked_ids self y m).
Proof.
  intros Hm H. unfold window_of, ConstantPad1d, slice.
  replace (Nat.min (length y - 1) (m + R + 1)) with (m + R + 1) by lia.
  replace (m - R) with 0 by lia.
  rewrite Nat.sub_diag, Nat.sub_0_r, skipn_O. simpl.
  rewrite app_nil_r. reflexivity.
Qed.

End Windows.

(** ** The groups of the masked checker *)

Lemma mapM_app {A B : Type} (f : A -> result B) (l1 l2 : list A) :
  mapM f (l1 ++ l2) =
  (bs1 <- mapM f l1 ;; bs2 <- mapM f l2 ;; Ok (bs1 ++ bs2)).
Proof.
  induction l1 as [| a l1 IH]; simpl.
  - destruct (mapM f l2); reflexivity.
  - destruct (f a); simpl; [| reflexivity].
    rewrite IH. destruct (mapM f l1); simpl; [| reflexivity].
    destruct (mapM f l2); reflexivity.
Qed.

Lemma map_seq_offset {B : Type} (g : nat -> B) (a b n : nat) :
  map (fun r => g (a + r)) (seq b n) = map g (seq (a + b) n).
Proof.
  revert b; induction n as [| n IH]; intros b; simpl; [reflexivity |].
  f_equal. rewrite IH. f_equal. f_equal. lia.
Qed.

Lemma group_starts_mem (n batch_size k : nat) :
  0 < batch_size ->
  k < (n + batch_size - 1) / batch_size <-> k * batch_size < n.
Proof.
  intros HB. split; intros H.
  - destruct (Nat.lt_ge_cases (k * batch_size) n) as [Hlt | Hge]; [exact Hlt |].
    exfalso.
    assert ((n + batch_size - 1) / batch_size < k + 1); [| lia].
    apply Nat.Div0.div_lt_upper_bound; lia.
  - assert (k + 1 <= (n + batch_size - 1) / batch_size); [| lia].
    apply Nat.div_le_lower_bound; lia.
Qed.

Lemma in_group_starts (n batch_size min_ix : nat) :
  0 < batch_size ->
  In min_ix (group_starts n batch_size) ->
  min_ix < n /\ min_ix mod batch_size = 0.
Proof.
  intros HB H. unfold group_starts in H.
  apply in_map_iff in H. destruct H as [k [<- Hk]].
  apply in_seq in Hk. split.
  - apply group_starts_mem; [exact HB | lia].
  - apply Nat.Div0.mod_mul.
Qed.

Lemma in_group_indices (n batch_size min_ix m : nat) :
  In m (group_indices n batch_size min_ix) -> m + 1 < n.
Proof.
  unfold group_indices. rewrite in_seq. lia.
Qed.

(** The groups taken together are the loop indices [0 .. n - 2], in order;
    an empty last group adds nothing. *)
Lemma concat_group_indices (n batch_size : nat) :
  0 < batch_size ->
  concat (map (group_indices n batch_size) (group_starts n batch_size)) =
  seq 0 (n - 1).
Proof.
  intros HB. unfold group_starts.
  set (G := (n + batch_size - 1) / batch_size).
  assert (Hpre : forall j, j <= G ->
            concat (map (group_indices n batch_size)
                        (map (fun k => k * batch_size) (seq 0 j))) =
            seq 0 (Nat.min (j * batch_size) (n - 1))).
  { induction j as [| j IH]; intros Hj; [reflexivity |].
    rewrite seq_S, !map_app, concat_app, IH by lia. simpl.
    rewrite app_nil_r. unfold group_indices.
    assert (Hlt : j * batch_size < n)
      by (apply group_starts_mem; [exact HB | unfold G in Hj; lia]).
    replace (Nat.min (j * batch_size) (n - 1)) with (j * batch_size) by lia.
    rewrite <- seq_app. f_equal. lia. }
  rewrite (Hpre G (le_n G)). f_equal.
  destruct (Nat.lt_ge_cases (G * batch_size) n) as [Hlt | Hge]; [| lia].
  exfalso. apply group_starts_mem in Hlt; [lia | exact HB].
Qed.

Section Groups.

Variable self : BERT.
Variable y : list nat.
Variables R batch_size : nat.

Lemma build_group_Ok (min_ix : nat) :
  BERTLM.build_group self y R batch_size min_ix =
  Ok (map (fun m => (window_of self y R m, nth (m + 1) y 0))
          (group_indices (length y) batch_size min_ix)).
Proof.
  unfold BERTLM.build_group, group_indices.
  set (len := Nat.min (min_ix + batch_size) (length y - 1) - min_ix).
  replace (seq min_ix len) with (seq (min_ix + 0) len)
    by (f_equal; lia).
  rewrite <- (map_seq_offset
                (fun m => (window_of self y R m, nth (m + 1) y 0))).
  rewrite <- mapM_pure. apply mapM_ext.
  intros r Hr. apply in_seq in Hr.
  assert (Hm : min_ix + r + 1 < length y) by (unfold len in Hr; lia).
  rewrite build_window_Ok by exact Hm. cbn [bind].
  unfold getitem. rewrite (nth_error_nth' y 0 Hm). reflexivity.
Qed.

Lemma same_width_windows (ms : list nat) :
  (forall m, In m ms -> m + 1 < length y) ->
  same_width (map (window_of self y R) ms) = true.
Proof.
  destruct ms as [| m0 ms]; simpl; intros H; [reflexivity |].
  apply forallb_forall. intros w Hw.
  apply in_map_iff in Hw. destruct Hw as [m [<- Hm]].
  rewrite !length_window_of by (apply H; auto).
  apply Nat.eqb_refl.
Qed.

Let batch_step := BERTLM.batch_step self y R batch_size.

Lemma batch_step_empty (min_ix : nat) :
  group_indices (length y) batch_size min_ix = [] ->
  batch_step min_ix = Err RuntimeError.
Proof.
  intros H. unfold batch_step, BERTLM.batch_step.
  rewrite build_group_Ok, H. reflexivity.
Qed.

Lemma batch_step_nonempty (min_ix : nat) :
  group_indices (length y) batch_size min_ix <> [] ->
  batch_step min_ix = Ok (batch_of self y R batch_size min_ix).
Proof.
  intros H. unfold batch_step, BERTLM.batch_step, batch_of.
  rewrite build_group_Ok. cbn [bind].
  rewrite !map_map. cbn [fst snd].
  pose proof (same_width_windows
                (group_indices (length y) batch_size min_ix)
                (in_group_indices _ _ _)) as Hw.
  destruct (group_indices (length y) batch_size min_ix) as [| m ms] eqn:E;
    [contradiction |].
  unfold torch_cat.
  cbn [map] in *.
  match goal with
  | |- context [same_width ?l] =>
      replace (same_width l) with true by (symmetry; exact Hw)
  end.
  reflexivity.
Qed.

Lemma build_batches_unfold :
  0 < batch_size ->
  BERTLM.build_batches self y R batch_size =
  mapM batch_step (group_starts (length y) batch_size).
Proof.
  intros HB. unfold BERTLM.build_batches.
  rewrite py_range_Ok by exact HB. reflexivity.
Qed.

Lemma group_nonempty_iff (min_ix : nat) :
  group_indices (length y) batch_size min_ix <> [] <->
  0 < batch_size /\ min_ix + 1 < length y.
Proof.
  unfold group_indices.
  destruct (Nat.min (min_ix + batch_size) (length y - 1) - min_ix) eqn:E;
    simpl; split; try congruence; lia.
Qed.

(** All groups are non-empty exactly when [batch_size] does not divide
    [length y - 1]. *)
Lemma groups_nonempty :
  0 < batch_size -> (length y - 1) mod batch_size <> 0 ->
  forall min_ix, In min_ix (group_starts (length y) batch_size) ->
                 group_indices (length y) batch_size min_ix <> [].
Proof.
  intros HB Hmod min_ix Hin.
  destruct (in_group_starts _ _ _ HB Hin) as [Hlt Hdiv].
  apply group_nonempty_iff. split; [exact HB |].
  destruct (Nat.eq_dec min_ix (length y - 1)) as [E | NE]; [| lia].
  exfalso. apply Hmod. rewrite <- E. exact Hdiv.
Qed.

Lemma build_batches_Ok :
  0 < batch_size -> (length y - 1) mod batch_size <> 0 ->
  BERTLM.build_batches self y R batch_size =
  Ok (map (batch_of self y R batch_size)
          (group_starts (length y) batch_size)).
Proof.
  intros HB Hmod. rewrite build_batches_unfold by exact HB.
  rewrite <- mapM_pure. apply mapM_ext.
  intros min_ix Hin. apply batch_step_nonempty.
  apply groups_nonempty; assumption.
Qed.

(** When [batch_size] divides [length y - 1] the last group starts at
    the last token and has no window: the concatenation raises. *)
Lemma build_batches_Err :
  0 < batch_size -> 1 <= length y -> (length y - 1) mod batch_size = 0 ->
  In (length y - 1) (group_starts (length y) batch_size) /\
  group_indices (length y) batch_size (length y - 1) = [] /\
  BERTLM.build_batches self y R batch_size = Err RuntimeError.
Proof.
  intros HB HN Hmod.
  set (q := (length y - 1) / batch_size).
  assert (Hq : length y - 1 = q * batch_size).
  { pose proof (Nat.div_mod_eq (length y - 1) batch_size). unfold q. lia. }
  assert (HG : (length y + batch_size - 1) / batch_size = S q).
  { replace (length y + batch_size - 1) with (S q * batch_size) by lia.
    apply Nat.div_mul. lia. }
  assert (Hempty : group_indices (length y) batch_size (length y - 1) = []).
  { unfold group_indices.
    replace (Nat.min (length y - 1 + batch_size) (length y - 1)
             - (length y - 1)) with 0 by lia.
    reflexivity. }
  split; [| split; [exact Hempty |]].
  - unfold group_starts. rewrite HG. apply in_map_iff.
    exists q. split; [lia | apply in_seq; lia].
  - rewrite build_batches_unfold by exact HB.
    unfold group_starts. rewrite HG, seq_S, map_app, mapM_app. simpl.
    rewrite <- Hq, (batch_step_empty _ Hempty).
    destruct (mapM batch_step (map (fun k => k * batch_size) (seq 0 q)))
      as [bs |] eqn:E; [reflexivity |].
    exfalso.
    destruct (mapM_total batch_step
                (map (fun k => k * batch_size) (seq 0 q))) as [bs Hbs];
      [| congruence].
    intros min_ix Hin. eexists. apply batch_step_nonempty.
    apply group_nonempty_iff. split; [exact HB |].
    apply in_map_iff in Hin. destruct Hin as [k [<- Hk]].
    apply in_seq in Hk. nia.
Qed.

End Groups.

(** ** What a payload of the masked checker is made of *)

Lemma mapM_nth_fwd {A B : Type} (f : A -> result B) (l : list A) (bs : list B) :
  mapM f l = Ok bs ->
  forall i a, nth_error l i = Some a ->
  exists b, nth_error bs i = Some b /\ f a = Ok b.
Proof.
  intros H. apply mapM_Forall2 in H.
  induction H as [| a b l bs Hab _ IH]; intros [| i] a' Ha; simpl in *;
    try discriminate.
  - injection Ha as <-. exists b; auto.
  - apply IH; assumption.
Qed.

Lemma Forall2_nth_intro {A B : Type} (P : A -> B -> Prop)
    (l : list A) (l' : list B) :
  length l = length l' ->
  (forall i a b, nth_error l i = Some a -> nth_error l' i = Some b -> P a b) ->
  Forall2 P l l'.
Proof.
  revert l'; induction l as [| a l IH]; intros [| b l'] Hlen H;
    simpl in Hlen; try discriminate; constructor.
  - apply (H 0); reflexivity.
  - apply IH; [lia |]. intros i a' b' Ha Hb. apply (H (S i)); assumption.
Qed.

Lemma Forall2_nth_elim {A B : Type} (P : A -> B -> Prop)
    (l : list A) (l' : list B) :
  Forall2 P l l' ->
  length l = length l' /\
  forall i b, nth_error l' i = Some b ->
              exists a, nth_error l i = Some a /\ P a b.
Proof.
  induction 1 as [| a b l l' Hab _ [IHlen IH]]; simpl.
  - split; [reflexivity |]. intros [| i] b H; discriminate.
  - split; [lia |]. intros [| i] b' H; simpl in *.
    + injection H as <-. exists a; auto.
    + apply IH; exact H.
Qed.

Lemma Forall2_concat {A B C : Type} (P : A -> B -> Prop) (g : C -> list A)
    (cs : list C) (bss : list (list B)) :
  Forall2 (fun c bs => Forall2 P (g c) bs) cs bss ->
  Forall2 P (concat (map g cs)) (concat bss).
Proof.
  induction 1 as [| c bs cs bss Hc _ IH]; simpl; [constructor |].
  apply Forall2_app; assumption.
Qed.

Lemma Forall2_map_eq {A B : Type} (f : A -> B) (l : list A) (l' : list B) :
  Forall2 (fun a b => b = f a) l l' -> l' = map f l.
Proof.
  induction 1; simpl; congruence.
Qed.

Section MaskedPayload.

Variable np : Numerics.
Variable self : BERT.
Variable y : list nat.
Variables topk R batch_size : nat.

(** The distribution of the window of loop index [m]. *)
Let dist (m : nat) : result (list Q) :=
  w <- BERTLM.build_window self y R m ;;
  out <- bert_model self w ;;
  logits <- getitem out (R + 1) ;;
  Ok (softmax np logits).

Lemma score_batch_inv (ms : list nat) (rt : list (nat * Q))
    (pt : list (list (pystr * Q))) :
  (forall m, In m ms -> m + 1 < length y) ->
  BERTLM.score_batch np self topk R
    (map (window_of self y R) ms, map (fun m => nth (m + 1) y 0) ms)
    = Ok (rt, pt) ->
  Forall2 (fun m e => exists row,
               dist m = Ok row /\
               ranked np (fun x => x) row (nth (m + 1) y 0) e) ms rt /\
  Forall2 (fun m pred => exists row,
               dist m = Ok row /\
               alternatives_of np (fun x => x) row topk pred) ms pt.
Proof.
  intros Hms H. unfold BERTLM.score_batch in H.
  inv_bind H as out Hout. inv_bind H as logits Hlogits.
  set (yhat := map (softmax np) logits) in *.
  set (sorted_preds := map (fun row => argsort np (map Qopp row)) yhat) in *.
  inv_bind H as pos Hpos. inv_bind H as probs Hprobs.
  inv_bind H as pred Hpred. injection H as <- <-.
  pose proof (mapM_length _ _ _ Hout) as Lout. rewrite length_map in Lout.
  pose proof (mapM_length _ _ _ Hlogits) as Llogits.
  assert (Lyhat : length yhat = length ms)
    by (unfold yhat; rewrite length_map; lia).
  destruct (mapM_seq_nth _ _ _ Hpos) as [Lpos Npos].
  destruct (mapM_seq_nth _ _ _ Hprobs) as [Lprobs Nprobs].
  destruct (mapM_seq_nth _ _ _ Hpred) as [Lpred Npred].
  assert (Hdist : forall i m, nth_error ms i = Some m ->
             exists l, nth_error logits i = Some l /\
                       dist m = Ok (softmax np l)).
  { intros i m Hm.
    assert (Hw : nth_error (map (window_of self y R) ms) i =
                 Some (window_of self y R m))
      by (rewrite nth_error_map, Hm; reflexivity).
    destruct (mapM_nth_fwd _ _ _ Hout i _ Hw) as [o [Ho Hmo]].
    destruct (mapM_nth_fwd _ _ _ Hlogits i _ Ho) as [l [Hl Hol]].
    exists l. split; [exact Hl |].
    unfold dist. rewrite build_window_Ok
      by (apply Hms; eapply nth_error_In; exact Hm).
    cbn [bind]. rewrite Hmo. cbn [bind]. rewrite Hol. reflexivity. }
  split.
  - apply Forall2_nth_intro; [rewrite length_combine; lia |].
    intros i m [rank prob] Hm He.
    apply nth_error_combine in He. destruct He as [Hr Hp].
    assert (Hlt : i < length yhat)
      by (rewrite Lyhat; apply nth_error_Some; congruence).
    destruct (Hdist i m Hm) as [l [Hl Hd]].
    exists (softmax np l). split; [exact Hd |].
    assert (Hrow : nth_error yhat i = Some (softmax np l))
      by (unfold yhat; rewrite nth_error_map, Hl; reflexivity).
    assert (Hti : nth_error (map (fun m => nth (m + 1) y 0) ms) i =
                  Some (nth (m + 1) y 0))
      by (rewrite nth_error_map, Hm; reflexivity).
    destruct (Npos i Hlt) as [rank' [Hr' Hf]].
    rewrite Hr in Hr'. injection Hr' as <-.
    inv_bind Hf as sp Hsp. inv_bind Hf as ti Hi.
    destruct (Nprobs i Hlt) as [pr [Hpr Hg]].
    rewrite Hp in Hpr. injection Hpr as <-.
    inv_bind Hg as ti' Hi'. inv_bind Hg as row Hrow'.
    apply getitem_Ok in Hsp, Hi, Hi', Hrow', Hg.
    rewrite Hti in Hi, Hi'. injection Hi as <-. injection Hi' as <-.
    rewrite Hrow in Hrow'. injection Hrow' as <-.
    unfold sorted_preds in Hsp. rewrite nth_error_map, Hrow in Hsp.
    simpl in Hsp. injection Hsp as <-.
    repeat split; simpl.
    + exact Hf.
    + apply nth_error_Some. congruence.
    + unfold prob_at. symmetry. apply nth_error_nth; exact Hg.
  - apply Forall2_nth_intro; [lia |].
    intros i m pr Hm Hpr.
    assert (Hlt : i < length yhat)
      by (rewrite Lyhat; apply nth_error_Some; congruence).
    destruct (Hdist i m Hm) as [l [Hl Hd]].
    exists (softmax np l). split; [exact Hd |].
    assert (Hrow : nth_error yhat i = Some (softmax np l))
      by (unfold yhat; rewrite nth_error_map, Hl; reflexivity).
    destruct (Npred i Hlt) as [pr' [Hpr' Hf]].
    rewrite Hpr in Hpr'. injection Hpr' as <-.
    inv_bind Hf as sp Hsp. inv_bind Hf as row Hrow'.
    inv_bind Hf as ps Hps. injection Hf as <-.
    apply getitem_Ok in Hsp, Hrow'.
    rewrite Hrow in Hrow'. injection Hrow' as <-.
    unfold sorted_preds in Hsp. rewrite nth_error_map, Hrow in Hsp.
    simpl in Hsp. injection Hsp as <-.
    destruct (mapM_getitem _ _ _ Hps) as [-> Hall].
    unfold alternatives_of. cbv zeta.
    set (sp := firstn topk (argsort np (map Qopp (softmax np l)))) in *.
    repeat split.
    + rewrite length_combine, !length_map. lia.
    + apply map_snd_combine. rewrite !length_map. reflexivity.
    + exact Hall.
Qed.

End MaskedPayload.

(** ** The payload of either checker, position by position *)

Lemma nth_error_tl {A : Type} (l : list A) (i : nat) :
  nth_error (tl l) i = nth_error l (S i).
Proof. destruct l; [destruct i |]; reflexivity. Qed.

Lemma length_tl {A : Type} (l : list A) : length (tl l) = length l - 1.
Proof. destruct l; simpl; lia. Qed.

Lemma Forall2_map_r {A B C : Type} (P : A -> B -> Prop) (Q : A -> C -> Prop)
    (f : B -> C) (l : list A) (l' : list B) :
  (forall a b, P a b -> Q a (f b)) ->
  Forall2 P l l' -> Forall2 Q l (map f l').
Proof.
  intros HPQ. induction 1; simpl; constructor; auto.
Qed.

Lemma Forall2_map_l {A B C : Type} (P : A -> B -> Prop) (f : C -> A)
    (l : list C) (l' : list B) :
  Forall2 (fun c b => P (f c) b) l l' -> Forall2 P (map f l) l'.
Proof.
  induction 1; simpl; constructor; auto.
Qed.

Lemma alternatives_of_relabel (np : Numerics) (round : Q -> Q) (row : list Q)
    (topk : nat) (g : pystr -> pystr) (pred : list (pystr * Q)) :
  alternatives_of np round row topk pred ->
  alternatives_of np round row topk (map (fun t => (g (fst t), snd t)) pred).
Proof.
  unfold alternatives_of. intros [Hl [Hs Hf]].
  rewrite length_map, map_map. simpl. repeat split; assumption.
Qed.

Lemma causal_run_payload (np : Numerics) (v : causal_variant) (self : GPT2)
    (in_text : pystr) (topk : nat) (p : Payload) :
  run np (Causal v self) in_text topk = Ok p ->
  length (bpe_strings p) = length (token_ids (Causal v self) in_text) /\
  Forall2 (entry_at np (Causal v self) in_text)
          (seq 0 (length (targets (Causal v self) in_text))) (real_topk p) /\
  Forall2 (alternatives_at np (Causal v self) in_text topk)
          (seq 0 (length (targets (Causal v self) in_text))) (pred_topk p).
Proof.
  intros H. simpl in H. rewrite causal_check_as_base in H.
  destruct (causal_payload np self in_text topk p H)
    as [logits [Hm [Hb [Hr [Hp [Hent Halt]]]]]].
  unfold targets. simpl token_ids.
  split; [exact Hb |]. split.
  - apply Forall2_nth_intro; [rewrite length_seq; congruence |].
    intros i a [rank prob] Ha He.
    rewrite nth_error_seq in Ha.
    destruct (Nat.ltb_spec i (length (tl (enc_encode self (gpt2_prep self in_text)))));
      [| discriminate].
    injection Ha as <-. simpl.
    destruct (Hent i rank prob He) as [row [t [Hrow [Ht [Hw [Hlt Hpr]]]]]].
    exists row, t. repeat split; try assumption.
    simpl. rewrite Hm. cbn [bind]. apply getitem_Ok. exact Hrow.
  - apply Forall2_nth_intro; [rewrite length_seq; congruence |].
    intros i a pred Ha He.
    rewrite nth_error_seq in Ha.
    destruct (Nat.ltb_spec i (length (tl (enc_encode self (gpt2_prep self in_text)))));
      [| discriminate].
    injection Ha as <-. simpl.
    destruct (Halt i pred He) as [row [toks [Hrow [Hl [Hall Hpred]]]]].
    exists row. split.
    + simpl. rewrite Hm. cbn [bind]. apply getitem_Ok. exact Hrow.
    + unfold alternatives_of. simpl. subst pred.
      rewrite length_combine, !length_map.
      repeat split; [lia | | exact Hall].
      apply map_snd_combine. rewrite !length_map. exact Hl.
Qed.

Lemma batch_step_inv (self : BERT) (y : list nat) (R batch_size min_ix : nat)
    (b : list (list nat) * list nat) :
  BERTLM.batch_step self y R batch_size min_ix = Ok b ->
  b = batch_of self y R batch_size min_ix.
Proof.
  intros H.
  destruct (group_indices (length y) batch_size min_ix) as [| m ms] eqn:E.
  - rewrite (batch_step_empty self y R batch_size min_ix E) in H.
    discriminate.
  - rewrite batch_step_nonempty in H by (rewrite E; discriminate).
    congruence.
Qed.

Lemma masked_run_payload (np : Numerics) (self : BERT) (R batch_size : nat)
    (in_text : pystr) (topk : nat) (p : Payload) :
  run np (Masked self R batch_size) in_text topk = Ok p ->
  length (bpe_strings p) =
    length (token_ids (Masked self R batch_size) in_text) /\
  Forall2 (entry_at np (Masked self R batch_size) in_text)
          (seq 0 (length (targets (Masked self R batch_size) in_text)))
          (real_topk p) /\
  Forall2 (alternatives_at np (Masked self R batch_size) in_text topk)
          (seq 0 (length (targets (Masked self R batch_size) in_text)))
          (pred_topk p).
Proof.
  intros H. cbn [run] in H. unfold BERTLM.check_probabilities in H.
  unfold targets, token_ids.
  set (tokenized_text :=
         tokenize self (str "[CLS] " ++ bert_prep self in_text ++ str " [SEP]"))
    in *.
  set (y := map (convert_token_to_id self) tokenized_text) in *.
  inv_bind H as batches Hb. inv_bind H as scored Hs. injection H as <-.
  cbn [bpe_strings real_topk pred_topk].
  assert (HB : 0 < batch_size).
  { destruct batch_size; [discriminate Hb | lia]. }
  rewrite build_batches_unfold in Hb by exact HB.
  assert (Ebatches : batches =
            map (batch_of self y R batch_size)
                (group_starts (length y) batch_size)).
  { apply Forall2_map_eq. apply mapM_Forall2 in Hb.
    eapply Forall2_impl; [| exact Hb].
    intros a b Hab. apply batch_step_inv in Hab. exact Hab. }
  subst batches.
  apply mapM_Forall2 in Hs.
  assert (Hs' : Forall2
            (fun min_ix sc =>
               BERTLM.score_batch np self topk R
                 (batch_of self y R batch_size min_ix) = Ok sc)
            (group_starts (length y) batch_size) scored).
  { clear - Hs. remember (map _ _) as bs eqn:E in Hs.
    revert E. generalize (group_starts (length y) batch_size).
    induction Hs as [| b sc bs scs Hb _ IH]; intros [| s ss] E;
      simpl in E; try discriminate; constructor.
    - injection E as -> _. exact Hb.
    - apply IH. injection E as _ ->. reflexivity. }
  assert (Hseq : seq 0 (length (tl y)) =
                 concat (map (group_indices (length y) batch_size)
                             (group_starts (length y) batch_size))).
  { rewrite length_tl. symmetry. apply concat_group_indices. exact HB. }
  rewrite Hseq.
  split; [unfold y; rewrite !length_map; reflexivity |].
  split.
  - apply Forall2_concat with (g := group_indices (length y) batch_size).
    apply Forall2_flip, Forall2_map_l, Forall2_flip.
    eapply Forall2_impl; [| exact Hs'].
    intros min_ix [rt pt] Hsc. simpl.
    apply score_batch_inv in Hsc; [| apply in_group_indices].
    destruct Hsc as [Hrt _].
    eapply Forall2_impl; [| exact Hrt].
    intros m e [row [Hd Hr]]. exists row, (nth (m + 1) y 0).
    split; [exact Hd |]. split; [| exact Hr].
    change (nth_error (tl y) m = Some (nth (m + 1) y 0)).
    rewrite nth_error_tl. replace (S m) with (m + 1) by lia.
    apply nth_error_nth'. replace (m + 1) with (S m) by lia.
    destruct (Nat.lt_ge_cases (S m) (length y)) as [Hlt | Hge]; [exact Hlt |].
    exfalso. unfold BERTLM.build_window in Hd.
    rewrite setitem_Err in Hd by lia. discriminate.
  - apply Forall2_map_r with
      (P := fun m pred => exists row,
                (w <- BERTLM.build_window self y R m ;;
                 out <- bert_model self w ;;
                 logits <- getitem out (R + 1) ;;
                 Ok (softmax np logits)) = Ok row /\
                alternatives_of np (fun x => x) row topk pred).
    + intros m pred [row [Hd Ha]]. exists row. split; [exact Hd |].
      apply alternatives_of_relabel. exact Ha.
    + apply Forall2_concat with (g := group_indices (length y) batch_size).
      apply Forall2_flip, Forall2_map_l, Forall2_flip.
      eapply Forall2_impl; [| exact Hs'].
      intros min_ix [rt pt] Hsc. simpl.
      apply score_batch_inv in Hsc; [| apply in_group_indices].
      destruct Hsc as [_ Hpt]. exact Hpt.
Qed.

Lemma run_payload (np : Numerics) (c : checker) (in_text : pystr)
    (topk : nat) (p : Payload) :
  run np c in_text topk = Ok p ->
  length (bpe_strings p) = length (token_ids c in_text) /\
  Forall2 (entry_at np c in_text)
          (seq 0 (length (targets c in_text))) (real_topk p) /\
  Forall2 (alternatives_at np c in_text topk)
          (seq 0 (length (targets c in_text))) (pred_topk p).
Proof.
  destruct c; [apply causal_run_payload | apply masked_run_payload].
Qed.

(** The lengths of the three sequences of a payload. *)
Lemma run_payload_lengths (np : Numerics) (c : checker) (in_text : pystr)
    (topk : nat) (p : Payload) :
  run np c in_text topk = Ok p ->
  length (bpe_strings p) = length (token_ids c in_text) /\
  length (real_topk p) = length (token_ids c in_text) - 1 /\
  length (pred_topk p) = length (token_ids c in_text) - 1.
Proof.
  intros H. destruct (run_payload np c in_text topk p H) as [Hb [Hr Hp]].
  apply Forall2_length in Hr, Hp.
  rewrite length_seq in Hr, Hp. unfold targets in Hr, Hp.
  rewrite length_tl in Hr, Hp. auto.
Qed.

(** ** The checkers return on well-formed models *)

Ltac step_mapM bs Hbs :=
  match goal with
  | |- context [bind (mapM ?f ?l) _] =>
      let H := fresh "H" in
      assert (H : forall a, In a l -> exists b, f a = Ok b);
      [ | destruct (mapM_total f l H) as [bs Hbs]; rewrite Hbs; cbn [bind] ]
  end.

Lemma sorted_row_total (np : Numerics) (row : list Q) (t : nat) :
  argsort_ok np -> t < length row ->
  exists r, where_first (argsort np (map Qopp row)) t = Ok r.
Proof.
  intros Hs Ht. apply where_first_In.
  destruct (Hs (map Qopp row)) as [Hperm _].
  apply Permutation_sym in Hperm. apply (Permutation_in _ Hperm).
  apply in_seq. rewrite length_map. lia.
Qed.

Lemma sorted_row_bound (np : Numerics) (row : list Q) (k : nat) :
  argsort_ok np ->
  Forall (fun j => j < length row) (firstn k (argsort np (map Qopp row))).
Proof.
  intros Hs. destruct (Hs (map Qopp row)) as [Hperm _].
  apply Forall_forall. intros j Hj. apply firstn_In in Hj.
  apply (Permutation_in _ Hperm) in Hj. apply in_seq in Hj.
  rewrite length_map in Hj. lia.
Qed.

Lemma causal_run_total (np : Numerics) (v : causal_variant) (self : GPT2)
    (V : nat) (in_text : pystr) (topk : nat) :
  argsort_ok np -> gpt2_ok np self V ->
  token_ids (Causal v self) in_text <> [] ->
  exists p, run np (Causal v self) in_text topk = Ok p.
Proof.
  intros Hs [Hmodel [Hdec Hids]] Hne. cbn [run token_ids] in *.
  rewrite causal_check_as_base. unfold AraGPT2Base.check_probabilities.
  set (context := enc_encode self (gpt2_prep self in_text)) in *.
  destruct (Hmodel context Hne) as [logits [Hl [Hlen Hrows]]].
  rewrite Hl. cbn [bind].
  set (yhat := map (softmax np) (removelast logits)).
  assert (Lyhat : length yhat = length (tl context)).
  { unfold yhat. rewrite length_map, length_tl.
    destruct logits as [| l0 ls] using rev_ind;
      [simpl in *; lia |].
    rewrite removelast_last. rewrite length_app in Hlen. simpl in Hlen. lia. }
  assert (Hyhat : forall i row, nth_error yhat i = Some row -> length row = V).
  { intros i row Hi. unfold yhat in Hi. rewrite nth_error_map in Hi.
    destruct (nth_error (removelast logits) i) as [l |] eqn:E;
      [| discriminate].
    injection Hi as <-. apply nth_error_In in E.
    rewrite Forall_forall in Hrows. apply Hrows.
    destruct logits as [| l0 ls] using rev_ind; [contradiction |].
    rewrite removelast_last in E. apply in_or_app; left; exact E. }
  assert (Hy : forall i, i < length (tl context) ->
             exists t row, nth_error (tl context) i = Some t /\
                           nth_error yhat i = Some row /\
                           t < length row).
  { intros i Hi.
    destruct (nth_error (tl context) i) as [t |] eqn:Et;
      [| apply nth_error_None in Et; lia].
    destruct (nth_error yhat i) as [row |] eqn:Er;
      [| apply nth_error_None in Er; lia].
    exists t, row. repeat split.
    rewrite (Hyhat i row Er).
    pose proof (Hids (gpt2_prep self in_text)) as Hall.
    rewrite Forall_forall in Hall. apply Hall.
    apply nth_error_In in Et. fold context.
    destruct context; [contradiction | right; exact Et]. }
  step_mapM pos Hpos.
  { intros i Hi. apply in_seq in Hi.
    destruct (Hy i) as [t [row [Ht [Hr Hlt]]]]; [lia |].
    unfold getitem. rewrite nth_error_map, Hr, Ht. cbn [option_map of_option bind].
    apply sorted_row_total; assumption. }
  step_mapM probs Hprobs.
  { intros i Hi. apply in_seq in Hi.
    destruct (Hy i) as [t [row [Ht [Hr Hlt]]]]; [lia |].
    unfold getitem at 1 2. rewrite Hr, Ht. cbn [of_option bind].
    apply getitem_lt. exact Hlt. }
  step_mapM strs Hstrs.
  { intros t Ht.
    pose proof (Hids (gpt2_prep self in_text)) as Hall.
    rewrite Forall_forall in Hall.
    destruct (Hdec t (Hall t Ht)) as [s0 Hs0]. rewrite Hs0.
    eexists; reflexivity. }
  step_mapM preds Hpreds.
  { intros i Hi. apply in_seq in Hi.
    destruct (Hy i) as [t [row [Ht [Hr Hlt]]]]; [lia |].
    unfold getitem at 1. rewrite nth_error_map, Hr. cbn [option_map of_option bind].
    pose proof (sorted_row_bound np row topk Hs) as Hb.
    destruct (mapM_total (fun p0 => of_option KeyError (enc_decoder self p0))
                (firstn topk (argsort np (map Qopp row)))) as [toks Htoks].
    { intros j Hj. rewrite Forall_forall in Hb.
      destruct (Hdec j) as [s0 Hs0];
        [rewrite <- (Hyhat i row Hr); apply Hb; exact Hj |].
      rewrite Hs0. eexists; reflexivity. }
    rewrite Htoks. cbn [bind].
    unfold getitem at 1. rewrite Hr. cbn [of_option bind].
    rewrite (mapM_getitem_total row _ Hb). cbn [bind].
    eexists; reflexivity. }
  eexists; reflexivity.
Qed.

Lemma score_batch_total (np : Numerics) (self : BERT) (V : nat)
    (y : list nat) (topk R : nat) (ms : list nat) :
  argsort_ok np -> bert_ok np self V -> 1 <= R ->
  (forall m, In m ms -> m + 1 < length y) ->
  Forall (fun t => t < V) y ->
  exists sc,
    BERTLM.score_batch np self topk R
      (map (window_of self y R) ms, map (fun m => nth (m + 1) y 0) ms)
      = Ok sc.
Proof.
  intros Hs [Hmodel _] HR Hms Hy. unfold BERTLM.score_batch.
  step_mapM out Hout.
  { intros w _. destruct (Hmodel w) as [o [Ho _]]. exists o; exact Ho. }
  pose proof (mapM_Forall2 _ _ _ Hout) as Fout.
  assert (Hrows : Forall (fun o => length o = 2 * R + 1 /\
                            Forall (fun l => length (softmax np l) = V) o) out).
  { clear - Fout Hmodel Hms. revert Fout.
    generalize out. induction ms as [| m ms IH]; intros o F;
      inversion F; subst; constructor.
    - destruct (Hmodel (window_of self y R m)) as [o' [Ho' [Hl Hv]]].
      assert (o' = y0) by congruence. subst.
      rewrite Hl, length_window_of by (apply Hms; left; reflexivity). auto.
    - apply IH; [intros; apply Hms; right; assumption | assumption]. }
  step_mapM logits Hlogits.
  { intros o Ho. rewrite Forall_forall in Hrows.
    destruct (Hrows o Ho) as [Hl _]. apply getitem_lt. lia. }
  pose proof (mapM_Forall2 _ _ _ Hlogits) as Flog.
  assert (Hlog : Forall (fun l => length (softmax np l) = V) logits).
  { clear - Flog Hrows. induction Flog as [| o l os ls Hol _ IH];
      constructor.
    - apply getitem_Ok, nth_error_In in Hol.
      apply Forall_inv in Hrows. destruct Hrows as [_ Hv].
      rewrite Forall_forall in Hv. apply Hv; exact Hol.
    - apply IH. apply Forall_inv_tail in Hrows. exact Hrows. }
  set (yhat := map (softmax np) logits).
  assert (Lyhat : length yhat = length ms).
  { unfold yhat. rewrite length_map.
    rewrite (mapM_length _ _ _ Hlogits), (mapM_length _ _ _ Hout).
    apply length_map. }
  assert (Hi : forall i, i < length yhat ->
             exists t row,
               nth_error (map (fun m => nth (m + 1) y 0) ms) i = Some t /\
               nth_error yhat i = Some row /\ length row = V /\ t < V).
  { intros i Hlt.
    destruct (nth_error ms i) as [m |] eqn:Em;
      [| apply nth_error_None in Em; lia].
    destruct (nth_error yhat i) as [row |] eqn:Er;
      [| apply nth_error_None in Er; lia].
    exists (nth (m + 1) y 0), row.
    rewrite nth_error_map, Em. repeat split.
    - unfold yhat in Er. rewrite nth_error_map in Er.
      destruct (nth_error logits i) as [l |] eqn:El; [| discriminate].
      injection Er as <-. rewrite Forall_forall in Hlog.
      apply Hlog. eapply nth_error_In; exact El.
    - rewrite Forall_forall in Hy. apply Hy. apply nth_In.
      apply Hms. eapply nth_error_In; exact Em. }
  step_mapM pos Hpos.
  { intros i Hin. apply in_seq in Hin.
    destruct (Hi i) as [t [row [Ht [Hr [Hl Hlt]]]]]; [lia |].
    unfold getitem. rewrite nth_error_map, Hr, Ht.
    cbn [option_map of_option bind].
    apply sorted_row_total; [assumption | lia]. }
  step_mapM probs Hprobs.
  { intros i Hin. apply in_seq in Hin.
    destruct (Hi i) as [t [row [Ht [Hr [Hl Hlt]]]]]; [lia |].
    unfold getitem at 1 2. rewrite Hr, Ht. cbn [of_option bind].
    apply getitem_lt. lia. }
  step_mapM preds Hpreds.
  { intros i Hin. apply in_seq in Hin.
    destruct (Hi i) as [t [row [Ht [Hr [Hl Hlt]]]]]; [lia |].
    unfold getitem at 1. rewrite nth_error_map, Hr.
    cbn [option_map of_option bind].
    unfold getitem at 1. rewrite Hr. cbn [of_option bind].
    rewrite (mapM_getitem_total row _ (sorted_row_bound np row topk Hs)).
    cbn [bind]. eexists; reflexivity. }
  eexists; reflexivity.
Qed.

Lemma masked_run_total (np : Numerics) (self : BERT) (V : nat)
    (R batch_size : nat) (in_text : pystr) (topk : nat) :
  argsort_ok np -> bert_ok np self V ->
  1 <= R -> 0 < batch_size ->
  (length (token_ids (Masked self R batch_size) in_text) - 1)
    mod batch_size <> 0 ->
  exists p, run np (Masked self R batch_size) in_text topk = Ok p.
Proof.
  intros Hs Hok HR HB Hmod. cbn [run].
  unfold BERTLM.check_probabilities.
  unfold token_ids in Hmod.
  set (tokenized_text :=
         tokenize self (str "[CLS] " ++ bert_prep self in_text ++ str " [SEP]"))
    in *.
  set (y := map (convert_token_to_id self) tokenized_text) in *.
  rewrite (build_batches_Ok self y R batch_size HB Hmod). cbn [bind].
  step_mapM scored Hscored.
  { intros b Hb. apply in_map_iff in Hb. destruct Hb as [min_ix [<- _]].
    unfold batch_of.
    apply (score_batch_total np self V y topk R _ Hs Hok HR).
    - apply in_group_indices.
    - unfold y. apply Forall_forall. intros t Ht.
      apply in_map_iff in Ht. destruct Ht as [tok [<- _]].
      apply (proj2 Hok). }
  eexists; reflexivity.
Qed.

(** The small models meet the contracts, with a vocabulary of 8. *)

Lemma toy_forward_shape (left : nat) (ids : list nat) :
  length (Toy.forward left ids) = length ids /\
  Forall (fun l => length (Toy.softmax2 l) = 8) (Toy.forward left ids).
Proof.
  revert left; induction ids as [| i ids IH]; intros left; simpl.
  - split; constructor.
  - destruct (IH i) as [Hl Hf]. split; [lia |].
    constructor; [| exact Hf].
    unfold Toy.softmax2, Toy.scores. rewrite !length_map, length_seq.
    reflexivity.
Qed.

Lemma toy_token_id_bound (token : pystr) : Toy.token_id token < 8.
Proof.
  unfold Toy.token_id.
  assert (H : forall v t i, Toy.index_of t v = Some i -> i < length v).
  { induction v as [| h v IH]; simpl; intros t i Hi; [discriminate |].
    destruct (pystr_eqb h t); [injection Hi as <-; lia |].
    destruct (Toy.index_of t v) as [j |] eqn:E; [| discriminate].
    injection Hi as <-. specialize (IH t j E). lia. }
  destruct (Toy.index_of token Toy.vocabulary) as [i |] eqn:E; [| lia].
  apply H in E. exact E.
Qed.

Lemma toy_bert_ok : bert_ok Toy.numerics Toy.bert 8.
Proof.
  split.
  - intros w. exists (Toy.forward 0 w).
    split; [reflexivity | apply toy_forward_shape].
  - apply toy_token_id_bound.
Qed.

Lemma toy_gpt2_ok : gpt2_ok Toy.numerics Toy.gpt2 8.
Proof.
  split; [| split].
  - intros ctx Hne. exists (Toy.forward 0 ctx).
    split; [destruct ctx; [contradiction | reflexivity] |].
    apply toy_forward_shape.
  - intros j Hj. simpl.
    destruct (nth_error Toy.vocabulary j) as [s |] eqn:E;
      [exists s; reflexivity |].
    apply nth_error_None in E. simpl in E. lia.
  - intros text. simpl. apply Forall_forall. intros t Ht.
    apply in_map_iff in Ht. destruct Ht as [tok [<- _]].
    apply toy_token_id_bound.
Qed.

(** ** Well-formed checkers *)

Lemma In_removelast {A : Type} (x : A) (l : list A) :
  In x (removelast l) -> In x l.
Proof.
  induction l as [| a l IH]; simpl; [tauto |].
  destruct l as [| b l]; [simpl; tauto |].
  intros [H | H]; [left; exact H | right; apply IH; exact H].
Qed.

Lemma run_total (np : Numerics) (c : checker) (in_text : pystr)
    (topk V : nat) :
  argsort_ok np -> well_formed np c in_text V ->
  exists p, run np c in_text topk = Ok p.
Proof.
  intros Hs Hw. destruct c as [v self | self R batch_size];
    cbn [well_formed] in Hw.
  - destruct Hw as [Hok Hne].
    apply (causal_run_total np v self V in_text topk Hs Hok Hne).
  - destruct Hw as [Hok [HR [HB Hmod]]].
    apply (masked_run_total np self V R batch_size in_text topk
             Hs Hok HR HB Hmod).
Qed.

(** On a well-formed checker every distribution has the size of the
    vocabulary. *)
Lemma distribution_length (np : Numerics) (c : checker) (in_text : pystr)
    (V i : nat) (row : list Q) :
  well_formed np c in_text V ->
  distribution np c in_text i = Ok row -> length row = V.
Proof.
  destruct c as [v self | self R batch_size];
    cbn [well_formed distribution]; intros Hw Hd.
  - destruct Hw as [[Hmodel _] Hne].
    destruct (Hmodel _ Hne) as [logits' [Hl [_ Hrows]]].
    inv_bind Hd as logits Hlog. rewrite Hl in Hlog. injection Hlog as <-.
    apply getitem_Ok in Hd. rewrite nth_error_map in Hd.
    destruct (nth_error (removelast logits') i) as [l |] eqn:E;
      [| discriminate].
    injection Hd as <-. rewrite Forall_forall in Hrows. apply Hrows.
    apply In_removelast. eapply nth_error_In; exact E.
  - destruct Hw as [[Hmodel _] _].
    inv_bind Hd as w Hw'. inv_bind Hd as out Hout. inv_bind Hd as l Hl.
    injection Hd as <-.
    destruct (Hmodel w) as [out' [Ho [_ Hrows]]].
    rewrite Ho in Hout. injection Hout as <-.
    rewrite Forall_forall in Hrows. apply Hrows.
    apply getitem_Ok in Hl. eapply nth_error_In; exact Hl.
Qed.


Lemma toy_causal_well_formed :
  well_formed Toy.numerics (Causal aragpt2_base Toy.gpt2)
    (str "word word the") 8.
Proof.
  split; [exact toy_gpt2_ok |]. vm_compute. discriminate.
Qed.

(** * The claims *)

(** ** C8: plain tokens pass the postprocessor unchanged *)

(** C8. For either tokenizer family, a raw token that carries none of the
    family's special prefixes, and for which the postprocessor computes
    both the leading-space flag and the line-break flag as false, is
    returned unchanged: no marker is added. (In the byte-level family the
    two flags are false for every such token; in the continuation-marker
    family the leading-space flag is true by default.) *)
Theorem postprocess_plain_token_unchanged (f : family) (token : pystr) :
  has_special_prefix f token = false ->
  fst (fst (postprocess_flags f token)) = false ->
  snd (fst (postprocess_flags f token)) = false ->
  postprocess f token = token.
Proof.
  unfold has_special_prefix.
  destruct f; cbn [special_prefixes existsb postprocess postprocess_flags].
  - unfold AraGPT2Base.postprocess, AraGPT2Base.postprocess_flags.
    intros Hp _ _.
    rewrite !orb_false_iff in Hp.
    destruct Hp as [H1 [H2 [H3 [H4 [H5 [H6 _]]]]]].
    repeat (first [rewrite H1 | rewrite H2 | rewrite H3
                  | rewrite H4 | rewrite H5 | rewrite H6];
            cbv beta iota zeta).
    reflexivity.
  - unfold BERTLM.postprocess, BERTLM.postprocess_flags.
    intros Hp. rewrite orb_false_r in Hp. rewrite Hp.
    cbn [fst snd]. discriminate.
Qed.

Lemma postprocess_plain_token_unchanged_witness :
  postprocess byte_level (str "word") = str "word".
Proof.
  apply (postprocess_plain_token_unchanged byte_level (str "word"));
    reflexivity.
Defined.

(** In the byte-level family the flags of a plain token are the initial
    ones. *)
Lemma byte_level_plain_flags (token : pystr) :
  has_special_prefix byte_level token = false ->
  postprocess_flags byte_level token = (false, false, token).
Proof.
  unfold has_special_prefix.
  cbn [special_prefixes existsb postprocess_flags].
  unfold AraGPT2Base.postprocess_flags. intros Hp.
  rewrite !orb_false_iff in Hp.
  destruct Hp as [H1 [H2 [H3 [H4 [H5 [H6 _]]]]]].
  repeat (first [rewrite H1 | rewrite H2 | rewrite H3
                  | rewrite H4 | rewrite H5 | rewrite H6];
            cbv beta iota zeta).
    reflexivity.
Qed.

(** ** C9: the two causal checkers *)

(** C9. Given the same model, tokenizer and preprocessor (the same [self])
    and the same numeric library, the [check_probabilities] of the class
    registered as 'aragpt2-base' and that of the class registered as
    'aragpt2-mega' return the same result on every text and every [topk],
    and their [postprocess] agree on every token. *)
Theorem causal_variants_equivalent (np : Numerics) (self : GPT2)
    (in_text : pystr) (topk : nat) :
  AraGPT2Base.check_probabilities np self in_text topk =
  AraGPT2Mega.check_probabilities np self in_text topk /\
  forall token, AraGPT2Base.postprocess token = AraGPT2Mega.postprocess token.
Proof.
  split.
  - unfold AraGPT2Base.check_probabilities, AraGPT2Mega.check_probabilities.
    reflexivity.
  - intros token.
    unfold AraGPT2Base.postprocess, AraGPT2Mega.postprocess.
    reflexivity.
Qed.

(** ** C1: the lengths of the three sequences *)

(** C1, as stated, fails: on a text of three tokens the causal checker
    returns three token surfaces and two rank entries, and so does the
    masked checker on a text of one word. *)
Lemma payload_lengths_counterexample :
  (exists p,
      run Toy.numerics (Causal aragpt2_base Toy.gpt2) (str "word word the") 3
        = Ok p /\
      length (bpe_strings p) = 3 /\ length (real_topk p) = 2 /\
      length (bpe_strings p) <> length (real_topk p)) /\
  (exists p,
      run Toy.numerics (Masked Toy.bert 20 20) (str "word") 5 = Ok p /\
      length (bpe_strings p) = 3 /\ length (real_topk p) = 2 /\
      length (bpe_strings p) <> length (real_topk p)).
Proof.
  split; eexists; (split; [vm_compute; reflexivity |]);
    repeat split; simpl; lia.
Qed.

(** C1, amended. Every payload that a checker returns for a text of [N]
    tokens has [N] token surfaces, [N - 1] rank entries and [N - 1] lists
    of alternatives: the last two sequences have equal length, and the
    first one has one entry more (the first token is not predicted). *)
Theorem payload_lengths (np : Numerics) (c : checker) (in_text : pystr)
    (topk : nat) (p : Payload) :
  run np c in_text topk = Ok p ->
  length (bpe_strings p) = length (token_ids c in_text) /\
  length (real_topk p) = length (token_ids c in_text) - 1 /\
  length (pred_topk p) = length (token_ids c in_text) - 1.
Proof.
  intros H.
  destruct (run_payload_lengths np c in_text topk p H) as [Hb [Hr Hp]].
  split; [exact Hb |]. split; [exact Hr | exact Hp].
Qed.

Lemma payload_lengths_witness :
  exists p,
    run Toy.numerics (Causal aragpt2_mega Toy.gpt2) (str "word word the") 3
      = Ok p /\
    length (bpe_strings p) = 3 /\
    length (real_topk p) = 2 /\ length (pred_topk p) = 2.
Proof.
  eexists. split; [vm_compute; reflexivity |].
  exact (payload_lengths Toy.numerics (Causal aragpt2_mega Toy.gpt2)
           (str "word word the") 3 _ eq_refl).
Defined.

(** ** C2: the positions that the masked checker ranks *)

(** C2, as stated, fails: a text that tokenizes to the start marker, one
    word and the end marker gets two rank entries with R = 20 and K = 5,
    the second one for the end marker. *)
Lemma masked_three_tokens_counterexample :
  token_ids (Masked Toy.bert 20 20) (str "word") = [2; 5; 3] /\
  exists p,
    run Toy.numerics (Masked Toy.bert 20 20) (str "word") 5 = Ok p /\
    length (real_topk p) = 2 /\
    length (real_topk p) <> 1.
Proof.
  split; [reflexivity |].
  eexists. split; [vm_compute; reflexivity |].
  split; simpl; lia.
Qed.

(** C2, amended. The rank entries of a payload of the masked checker cover
    the token positions 1 .. N-1: every token but the start marker, the
    end marker included. Entry [i] ranks the token at position [i + 1]
    against the distribution of window [i]. For a text of exactly 3 tokens
    the payload has exactly 2 rank entries. *)
Theorem masked_positions_covered (np : Numerics) (self : BERT)
    (R batch_size : nat) (in_text : pystr) (topk : nat) (p : Payload) :
  run np (Masked self R batch_size) in_text topk = Ok p ->
  length (real_topk p) =
    length (token_ids (Masked self R batch_size) in_text) - 1 /\
  (forall i, i + 1 < length (token_ids (Masked self R batch_size) in_text) ->
             exists e, nth_error (real_topk p) i = Some e) /\
  (forall i e, nth_error (real_topk p) i = Some e ->
     exists row t,
       distribution np (Masked self R batch_size) in_text i = Ok row /\
       nth_error (token_ids (Masked self R batch_size) in_text) (i + 1)
         = Some t /\
       ranked np (fun x => x) row t e) /\
  (length (token_ids (Masked self R batch_size) in_text) = 3 ->
   length (real_topk p) = 2).
Proof.
  intros H.
  destruct (run_payload np _ in_text topk p H) as [_ [Hr _]].
  destruct (Forall2_nth_elim _ _ _ Hr) as [Hlen Hnth].
  rewrite length_seq in Hlen. unfold targets in Hlen.
  rewrite length_tl in Hlen.
  split; [lia |]. split; [| split].
  - intros i Hi.
    destruct (nth_error (real_topk p) i) as [e |] eqn:E;
      [exists e; reflexivity |].
    apply nth_error_None in E. lia.
  - intros i e He.
    destruct (Hnth i e He) as [a [Ha [row [t [Hd [Ht Hrk]]]]]].
    rewrite nth_error_seq in Ha.
    destruct (Nat.ltb_spec i
                (length (targets (Masked self R batch_size) in_text)));
      [| discriminate].
    injection Ha as <-. simpl in Hd, Ht.
    exists row, t. split; [exact Hd |]. split; [| exact Hrk].
    unfold targets in Ht. rewrite nth_error_tl in Ht.
    replace (i + 1) with (S i) by lia. exact Ht.
  - intros H3. lia.
Qed.

Lemma masked_positions_covered_witness :
  exists p,
    run Toy.numerics (Masked Toy.bert 20 20) (str "word") 5 = Ok p /\
    length (real_topk p) = 2.
Proof.
  eexists. split; [vm_compute; reflexivity |].
  refine (proj2 (proj2 (proj2
            (masked_positions_covered Toy.numerics Toy.bert 20 20
               (str "word") 5 _ eq_refl))) _).
  reflexivity.
Defined.

(** ** C10: the empty last group *)

(** C10. Let [N >= 1] be the number of tokens of the input of the masked
    checker, markers included, and let [batch_size] be positive. If
    [batch_size] divides [N - 1], the first loop reaches a last group that
    starts at [N - 1] and has no window, the concatenation of that group
    raises, and the call fails with that error instead of returning a
    payload. Otherwise every group of the first loop has a window and the
    loop returns its batches. *)
Theorem masked_empty_last_group (np : Numerics) (self : BERT)
    (R batch_size : nat) (in_text : pystr) (topk : nat) :
  0 < batch_size ->
  1 <= length (token_ids (Masked self R batch_size) in_text) ->
  let y := token_ids (Masked self R batch_size) in_text in
  if (length y - 1) mod batch_size =? 0 then
    In (length y - 1) (group_starts (length y) batch_size) /\
    BERTLM.build_group self y R batch_size (length y - 1) = Ok [] /\
    torch_cat (A := nat) [] = Err RuntimeError /\
    run np (Masked self R batch_size) in_text topk = Err RuntimeError
  else
    (forall min_ix, In min_ix (group_starts (length y) batch_size) ->
       exists cur, BERTLM.build_group self y R batch_size min_ix = Ok cur /\
                   cur <> []) /\
    exists batches, BERTLM.build_batches self y R batch_size = Ok batches.
Proof.
  intros HB HN y.
  destruct (Nat.eqb_spec ((length y - 1) mod batch_size) 0) as [Hmod | Hmod].
  - destruct (build_batches_Err self y R batch_size HB HN Hmod)
      as [Hin [Hempty Herr]].
    split; [exact Hin |]. split; [| split; [reflexivity |]].
    + rewrite build_group_Ok, Hempty. reflexivity.
    + cbn [run]. unfold BERTLM.check_probabilities.
      change (map (convert_token_to_id self) _) with y.
      rewrite Herr. reflexivity.
  - split.
    + intros min_ix Hin. rewrite build_group_Ok. eexists.
      split; [reflexivity |].
      pose proof (groups_nonempty y batch_size HB Hmod min_ix Hin) as Hne.
      destruct (group_indices (length y) batch_size min_ix);
        [contradiction | discriminate].
    + eexists. apply build_batches_Ok; assumption.
Qed.

Lemma masked_empty_last_group_witness :
  run Toy.numerics (Masked Toy.bert 20 2) (str "word") 5 = Err RuntimeError /\
  exists batches,
    BERTLM.build_batches Toy.bert
      (token_ids (Masked Toy.bert 20 20) (str "word")) 20 20 = Ok batches.
Proof.
  split.
  - refine (proj2 (proj2 (proj2
              (masked_empty_last_group Toy.numerics Toy.bert 20 2
                 (str "word") 5 _ _)))); vm_compute; lia.
  - refine (proj2
              (masked_empty_last_group Toy.numerics Toy.bert 20 20
                 (str "word") 5 _ _)); vm_compute; lia.
Defined.

(** ** C4: the shape of a window *)

(** C4, as stated, fails: with R = 2 the first window of a document of
    eight tokens is [pad pad CLS MASK w]; offset R holds the start marker
    and the mask is at offset R + 1. *)
Lemma window_mask_offset_counterexample :
  BERTLM.build_window Toy.bert [2; 5; 5; 5; 5; 5; 5; 3] 2 0
    = Ok [0; 0; 2; 4; 5] /\
  nth_error [0; 0; 2; 4; 5] 2 <> Some (mask_tok Toy.bert) /\
  nth_error [0; 0; 2; 4; 5] (2 + 1) = Some (mask_tok Toy.bert).
Proof.
  split; [reflexivity |]. split; [discriminate | reflexivity].
Qed.

(** C4, amended. For every loop index [m] of the first loop (the target is
    the token at position [m + 1]) the window has width exactly 2R + 1.
    When R >= 1 and the target is not the last token of the document, the
    mask id is at local offset R + 1, and R + 1 is the offset at which the
    scores of the window are read. For [m < R] in a document of more than
    2R + 1 tokens the window starts with exactly [R - m] pad ids, followed
    by the tokens 0 .. m + R of the masked document. *)
Theorem window_shape (np : Numerics) (self : BERT) (R batch_size : nat)
    (in_text : pystr) (m : nat) :
  m + 1 < length (token_ids (Masked self R batch_size) in_text) ->
  exists w,
    BERTLM.build_window self
      (token_ids (Masked self R batch_size) in_text) R m = Ok w /\
    length w = 2 * R + 1 /\
    (1 <= R ->
     m + 2 < length (token_ids (Masked self R batch_size) in_text) ->
     nth_error w (R + 1) = Some (mask_tok self)) /\
    distribution np (Masked self R batch_size) in_text m =
      (out <- bert_model self w ;;
       logits <- getitem out (R + 1) ;;
       Ok (softmax np logits)) /\
    (m < R ->
     2 * R + 1 < length (token_ids (Masked self R batch_size) in_text) ->
     firstn (R - m) w = repeat (pad self) (R - m) /\
     skipn (R - m) w =
       firstn (m + R + 1)
         (masked_ids self (token_ids (Masked self R batch_size) in_text) m)).
Proof.
  set (y := token_ids (Masked self R batch_size) in_text).
  intros H. exists (window_of self y R m).
  split; [apply build_window_Ok; exact H |].
  split; [apply length_window_of; exact H |].
  split; [intros HR Hm; apply window_of_mask; assumption |].
  split.
  - unfold distribution. fold y.
    rewrite build_window_Ok by exact H. reflexivity.
  - intros Hm Hlen.
    rewrite (window_of_left_deficient self y R m Hm Hlen).
    split.
    + rewrite firstn_app, repeat_length, Nat.sub_diag, firstn_O, app_nil_r.
      apply firstn_all2. rewrite repeat_length. lia.
    + rewrite skipn_app, repeat_length, Nat.sub_diag, skipn_O.
      rewrite skipn_all2 by (rewrite repeat_length; lia). reflexivity.
Qed.

Lemma window_shape_witness :
  exists w,
    BERTLM.build_window Toy.bert
      (token_ids (Masked Toy.bert 2 20)
                 (str "word word word word word word")) 2 0 = Ok w /\
    length w = 5 /\
    nth_error w 3 = Some (mask_tok Toy.bert) /\
    firstn 2 w = [pad Toy.bert; pad Toy.bert].
Proof.
  destruct (window_shape Toy.numerics Toy.bert 2 20
              (str "word word word word word word") 0)
    as [w [Hw [Hlen [Hmask [_ Hleft]]]]]; [vm_compute; lia |].
  exists w. split; [exact Hw |]. split; [exact Hlen |].
  split; [apply Hmask; vm_compute; lia |].
  apply Hleft; vm_compute; lia.
Defined.

(** ** C3: empty input *)

Lemma causal_empty_run (np : Numerics) (v : causal_variant) (self : GPT2)
    (in_text : pystr) (topk : nat) :
  token_ids (Causal v self) in_text = [] ->
  run np (Causal v self) in_text topk =
    match gpt2_model self [] with
    | Ok _ => Ok empty_payload
    | Err e => Err e
    end.
Proof.
  intros H. cbn [run]. rewrite causal_check_as_base.
  unfold AraGPT2Base.check_probabilities.
  cbn [token_ids] in H. rewrite H.
  destruct (gpt2_model self []) as [logits | e]; reflexivity.
Qed.

Lemma group_starts_two (batch_size : nat) :
  2 <= batch_size -> group_starts 2 batch_size = [0].
Proof.
  intros HB. unfold group_starts.
  replace ((2 + batch_size - 1) / batch_size) with 1; [reflexivity |].
  apply (Nat.div_unique (2 + batch_size - 1) batch_size 1 1); lia.
Qed.

(** C3, as stated, fails: there is no [EmptyInputError] in the code. On
    the empty string the masked checker (two tokens, the markers) returns
    a payload with one rank entry; the causal checker hands the empty
    sequence to the model, and returns the empty payload when the forward
    pass accepts it, or fails with the model's own exception. *)
Lemma empty_input_counterexample :
  (token_ids (Masked Toy.bert 20 20) (str "") = [2; 3] /\
   exists p,
     run Toy.numerics (Masked Toy.bert 20 20) (str "") 5 = Ok p /\
     length (real_topk p) = 1) /\
  (token_ids (Causal aragpt2_base Toy.gpt2_lenient) (str "") = [] /\
   run Toy.numerics (Causal aragpt2_base Toy.gpt2_lenient) (str "") 5
     = Ok empty_payload) /\
  run Toy.numerics (Causal aragpt2_base Toy.gpt2) (str "") 5
    = Err (ModelError 0).
Proof.
  split; [split; [reflexivity |] | split; [split |]]; try reflexivity.
  eexists. split; [vm_compute; reflexivity | reflexivity].
Qed.

(** C3, amended. Neither checker tests for an empty input. In the causal
    checkers a text without tokens is passed to the model: if the forward
    pass raises, the call fails with that exception, and otherwise it
    returns the payload with three empty sequences. In the masked checker
    a text that tokenizes to the two markers only, with a batch size of 2
    or more, yields one batch with one window (the one of the end marker),
    and a payload, when the call returns, has 2 token surfaces, 1 rank
    entry and 1 list of alternatives. *)
Theorem empty_input_outcome (np : Numerics) (c : checker) (in_text : pystr)
    (topk : nat) :
  match c with
  | Causal _ _ => token_ids c in_text = []
  | Masked _ _ batch_size =>
      length (token_ids c in_text) = 2 /\ 2 <= batch_size
  end ->
  match c with
  | Causal _ self =>
      run np c in_text topk =
        match gpt2_model self [] with
        | Ok _ => Ok empty_payload
        | Err e => Err e
        end
  | Masked self R batch_size =>
      BERTLM.build_batches self (token_ids c in_text) R batch_size =
        Ok [([window_of self (token_ids c in_text) R 0],
             [nth 1 (token_ids c in_text) 0])] /\
      forall p, run np c in_text topk = Ok p ->
                length (bpe_strings p) = 2 /\
                length (real_topk p) = 1 /\
                length (pred_topk p) = 1
  end.
Proof.
  destruct c as [v self | self R batch_size].
  - apply causal_empty_run.
  - intros [HN HB]. split.
    + rewrite build_batches_Ok; [| lia |].
      * rewrite HN, group_starts_two by exact HB.
        unfold batch_of, group_indices. rewrite HN. cbn [map].
        replace (Nat.min (0 + batch_size) (2 - 1) - 0) with 1 by lia.
        reflexivity.
      * rewrite HN. rewrite Nat.mod_small; lia.
    + intros p Hp. apply run_payload_lengths in Hp. rewrite HN in Hp.
      exact Hp.
Qed.

Lemma empty_input_outcome_witness :
  run Toy.numerics (Causal aragpt2_base Toy.gpt2) (str "") 5
    = Err (ModelError 0) /\
  BERTLM.build_batches Toy.bert [2; 3] 20 20 =
    Ok [([window_of Toy.bert [2; 3] 20 0], [3])].
Proof.
  split.
  - exact (empty_input_outcome Toy.numerics
             (Causal aragpt2_base Toy.gpt2) (str "") 5 eq_refl).
  - refine (proj1 (empty_input_outcome Toy.numerics
                     (Masked Toy.bert 20 20) (str "") 5 _)).
    split; [reflexivity | lia].
Defined.

(** ** C6: the meaning of a rank *)






(** ** C7: the top-K alternatives *)

Lemma StronglySorted_firstn {A : Type} (R : A -> A -> Prop) (k : nat)
    (l : list A) :
  StronglySorted R l -> StronglySorted R (firstn k l).
Proof.
  revert k; induction l as [| a l IH]; intros [| k] H; simpl;
    try constructor.
  - apply IH. apply StronglySorted_inv in H. tauto.
  - apply StronglySorted_inv in H. destruct H as [_ Hf].
    rewrite Forall_forall in *. intros x Hx.
    apply Hf. eapply firstn_In; exact Hx.
Qed.

Lemma non_increasing_map_sorted (R : nat -> nat -> Prop) (f : nat -> Q)
    (l : list nat) :
  (forall x y, R x y -> (f y <= f x)%Q) ->
  StronglySorted R l -> non_increasing (map f l).
Proof.
  intros HR. induction l as [| x [| y l] IH]; simpl; intros H; auto.
  apply StronglySorted_inv in H. destruct H as [Hs Hf].
  split; [| apply IH; exact Hs].
  apply HR. rewrite Forall_forall in Hf. apply Hf. left; reflexivity.
Qed.

Lemma rounding_mono (c : checker) (x y : Q) :
  (x <= y)%Q -> (rounding c x <= rounding c y)%Q.
Proof.
  destruct c; simpl; [apply round5_mono | auto].
Qed.

(** C7. On a well-formed model with a vocabulary of V entries the checker
    returns a payload that has one list of alternatives per predicted
    position, each of [min(K, V)] entries whose probabilities do not
    increase along the list. And in every payload that a checker returns,
    every predicted position of either pipeline has a list of
    alternatives, of [min(K, V)] entries where V is the size of the
    distribution of that position, whose probabilities do not increase
    along the list. *)
Theorem top_alternatives_sorted (np : Numerics) (c : checker)
    (in_text : pystr) (topk : nat) :
  argsort_ok np ->
  (forall V, well_formed np c in_text V ->
     exists p,
       run np c in_text topk = Ok p /\
       length (pred_topk p) = length (targets c in_text) /\
       Forall (fun pred => length pred = Nat.min topk V /\
                           non_increasing (map snd pred)) (pred_topk p)) /\
  (forall p, run np c in_text topk = Ok p ->
     forall i, i < length (targets c in_text) ->
     exists pred row,
       nth_error (pred_topk p) i = Some pred /\
       distribution np c in_text i = Ok row /\
       length pred = Nat.min topk (length row) /\
       non_increasing (map snd pred)).
Proof.
  intros Hsort.
  assert (Hat : forall i pred,
             alternatives_at np c in_text topk i pred ->
             exists row,
               distribution np c in_text i = Ok row /\
               length pred = Nat.min topk (length row) /\
               non_increasing (map snd pred)).
  { intros i pred [row [Hd [Hlen [Hsnd _]]]].
    exists row. split; [exact Hd |].
    destruct (Hsort (map Qopp row)) as [Hperm Hsorted].
    split.
    - rewrite Hlen, length_firstn.
      apply Permutation_length in Hperm.
      rewrite length_seq, length_map in Hperm. rewrite Hperm. reflexivity.
    - rewrite Hsnd.
      apply non_increasing_map_sorted
        with (R := fun x y => (prob_at (map Qopp row) x
                               <= prob_at (map Qopp row) y)%Q).
      + intros x y Hxy. rewrite !prob_at_opp in Hxy.
        apply rounding_mono.
        apply Qopp_le_compat in Hxy. rewrite !Qopp_involutive in Hxy.
        exact Hxy.
      + apply StronglySorted_firstn. exact Hsorted. }
  split.
  - intros V Hwf.
    destruct (run_total np c in_text topk V Hsort Hwf) as [p Hp].
    exists p. split; [exact Hp |].
    destruct (run_payload np c in_text topk p Hp) as [_ [_ Ha]].
    split; [apply Forall2_length in Ha; rewrite length_seq in Ha; lia |].
    apply Forall_forall. intros pred Hin.
    apply In_nth_error in Hin. destruct Hin as [i Hi].
    destruct (Forall2_nth_elim _ _ _ Ha) as [_ Hnth].
    destruct (Hnth i _ Hi) as [a [Hia Halt]].
    rewrite nth_error_seq in Hia.
    destruct (Nat.ltb_spec i (length (targets c in_text))); [| discriminate].
    injection Hia as <-. cbn [Nat.add] in Halt.
    destruct (Hat i pred Halt) as [row [Hd [Hlen Hn]]].
    rewrite (distribution_length np c in_text V i row Hwf Hd) in Hlen.
    split; assumption.
  - intros p Hp i Hi.
    destruct (run_payload np c in_text topk p Hp) as [_ [_ Ha]].
    pose proof (Forall2_length Ha) as Hlen. rewrite length_seq in Hlen.
    destruct (nth_error (pred_topk p) i) as [pred |] eqn:Ep;
      [| apply nth_error_None in Ep; lia].
    destruct (Forall2_nth_elim _ _ _ Ha) as [_ Hnth].
    destruct (Hnth i _ Ep) as [a [Hia Halt]].
    rewrite nth_error_seq in Hia.
    destruct (Nat.ltb_spec i (length (targets c in_text))); [| discriminate].
    injection Hia as <-. cbn [Nat.add] in Halt.
    destruct (Hat i pred Halt) as [row [Hd [Hl Hn]]].
    exists pred, row. split; [reflexivity |].
    split; [exact Hd |]. split; assumption.
Qed.

Lemma top_alternatives_sorted_witness :
  (exists p,
     run Toy.numerics (Causal aragpt2_base Toy.gpt2) (str "word word the") 3
       = Ok p /\
     Forall (fun pred => length pred = Nat.min 3 8 /\
                         non_increasing (map snd pred)) (pred_topk p)) /\
  exists pred row,
    nth_error (pred_topk Toy.payload_causal) 0 = Some pred /\
    distribution Toy.numerics (Causal aragpt2_base Toy.gpt2)
      (str "word word the") 0 = Ok row /\
    length pred = Nat.min 3 (length row) /\
    non_increasing (map snd pred).
Proof.
  destruct (top_alternatives_sorted Toy.numerics
              (Causal aragpt2_base Toy.gpt2) (str "word word the") 3
              toy_argsort_ok) as [Htotal Hlists].
  split.
  - destruct (Htotal 8 toy_causal_well_formed) as [p [Hp [_ Hall]]].
    exists p. split; [exact Hp | exact Hall].
  - assert (E : run Toy.numerics (Causal aragpt2_base Toy.gpt2)
                  (str "word word the") 3 = Ok Toy.payload_causal)
      by (vm_compute; reflexivity).
    apply (Hlists Toy.payload_causal E 0). vm_compute. lia.
Defined.

(** ** C5: the probabilities of a payload *)

Lemma distribution_softmax (np : Numerics) (c : checker) (in_text : pystr)
    (i : nat) (row : list Q) :
  distribution np c in_text i = Ok row ->
  exists logits, row = softmax np logits.
Proof.
  destruct c as [v self | self R batch_size]; cbn [distribution]; intros H.
  - inv_bind H as logits Hl. apply getitem_Ok in H.
    rewrite nth_error_map in H.
    destruct (nth_error (removelast logits) i) as [l |]; [| discriminate].
    injection H as <-. exists l; reflexivity.
  - inv_bind H as w Hw. inv_bind H as out Hout. inv_bind H as l Hl.
    injection H as <-. exists l; reflexivity.
Qed.

Lemma prob_at_softmax_range (np : Numerics) (logits : list Q) (j : nat) :
  softmax_ok np -> j < length (softmax np logits) ->
  (0 <= prob_at (softmax np logits) j <= 1)%Q.
Proof.
  intros Hok Hj. destruct (Hok logits) as [_ Hr].
  rewrite Forall_forall in Hr. apply Hr. apply nth_In. exact Hj.
Qed.

(** X21, the part of C5 that holds. When the softmax returns
    probabilities, all probabilities of a payload, in the rank entries and
    in the lists of alternatives, lie in [0, 1], and those of the causal
    checkers have at most five decimals. *)
Lemma payload_probabilities (np : Numerics) (c : checker) (in_text : pystr)
    (topk : nat) (p : Payload) :
  softmax_ok np ->
  run np c in_text topk = Ok p ->
  (Forall (fun e => (0 <= snd e <= 1)%Q) (real_topk p) /\
   Forall (Forall (fun a => (0 <= snd a <= 1)%Q)) (pred_topk p)) /\
  (family_of c = byte_level ->
   Forall (fun e => five_decimals (snd e)) (real_topk p) /\
   Forall (Forall (fun a => five_decimals (snd a))) (pred_topk p)).
Proof.
  intros Hok Hrun.
  destruct (run_payload np c in_text topk p Hrun) as [_ [Hr Ha]].
  assert (Hrange : forall x, (0 <= x <= 1)%Q -> (0 <= rounding c x <= 1)%Q).
  { destruct c; simpl; [apply round5_range | auto]. }
  assert (Hin_snd : forall (P : Q -> Prop) (pred : list (pystr * Q)),
             Forall P (map snd pred) -> Forall (fun a => P (snd a)) pred).
  { intros P pred. rewrite !Forall_forall. intros HP a Ha'.
    apply HP. apply in_map. exact Ha'. }
  split; [split | intros Hfam; split].
  - apply Forall_forall. intros e He.
    apply In_nth_error in He. destruct He as [i He].
    destruct (proj2 (Forall2_nth_elim _ _ _ Hr) i e He)
      as [a [_ [row [t [Hd [_ [_ [Hlt Hs]]]]]]]].
    rewrite Hs. apply Hrange.
    destruct (distribution_softmax _ _ _ _ _ Hd) as [l ->].
    apply prob_at_softmax_range; assumption.
  - apply Forall_forall. intros pred Hp.
    apply In_nth_error in Hp. destruct Hp as [i Hp].
    destruct (proj2 (Forall2_nth_elim _ _ _ Ha) i pred Hp)
      as [a [_ [row [Hd [_ [Hs Hall]]]]]].
    apply (Hin_snd (fun q => (0 <= q <= 1)%Q)). rewrite Hs.
    apply Forall_forall.
    intros x Hx. apply in_map_iff in Hx. destruct Hx as [j [<- Hj]].
    apply Hrange.
    destruct (distribution_softmax _ _ _ _ _ Hd) as [l ->].
    apply prob_at_softmax_range; [exact Hok |].
    rewrite Forall_forall in Hall. apply Hall. exact Hj.
  - destruct c; [| discriminate Hfam].
    apply Forall_forall. intros e He.
    apply In_nth_error in He. destruct He as [i He].
    destruct (proj2 (Forall2_nth_elim _ _ _ Hr) i e He)
      as [a [_ [row [t [_ [_ [_ [_ Hs]]]]]]]].
    rewrite Hs. apply round5_five_decimals.
  - destruct c; [| discriminate Hfam].
    apply Forall_forall. intros pred Hp.
    apply In_nth_error in Hp. destruct Hp as [i Hp].
    destruct (proj2 (Forall2_nth_elim _ _ _ Ha) i pred Hp)
      as [a [_ [row [_ [_ [Hs _]]]]]].
    apply (Hin_snd five_decimals). rewrite Hs. apply Forall_forall.
    intros x Hx. apply in_map_iff in Hx. destruct Hx as [j [<- _]].
    apply round5_five_decimals.
Qed.

(** C5 on the masked checker, at a text of one word: the payload holds the
    probability 8/30 as the softmax gave it, which has infinitely many
    decimals; it is not the result of a rounding to five decimals. The
    masked checker has no [round(x, 5)], neither for the rank entries nor
    for the alternatives. *)
Theorem masked_probabilities_unrounded :
  run Toy.numerics (Masked Toy.bert 20 20) (str "word") 5
    = Ok Toy.payload_masked /\
  nth_error (real_topk Toy.payload_masked) 0 = Some (1, Qmake 8 30) /\
  ~ five_decimals (Qmake 8 30) /\
  ~ (round5 (Qmake 8 30) == Qmake 8 30)%Q /\
  (exists pred a, nth_error (pred_topk Toy.payload_masked) 0 = Some pred /\
                  In a pred /\ ~ five_decimals (snd a)).
Proof.
  assert (H830 : ~ five_decimals (Qmake 8 30)).
  { intros [z Hz]. unfold Qeq in Hz. simpl in Hz. lia. }
  split; [vm_compute; reflexivity |].
  split; [reflexivity |].
  split; [exact H830 |].
  split; [vm_compute; discriminate |].
  eexists. eexists. split; [reflexivity |].
  split; [left; reflexivity | exact H830].
Qed.

(** * Further properties of the code *)

(** ** The windows and the batches of the masked checker *)

Lemma build_window_closed (self : BERT) (y : list nat) (R m : nat) :
  BERTLM.build_window self y R m =
    if m + 1 <? length y then
      Ok (repeat (pad self) (R - m)
          ++ slice (masked_ids self y m) (m - R)
                   (Nat.min (length y - 1) (m + R + 1))
          ++ repeat (pad self)
                    (m + R + 1 - Nat.min (length y - 1) (m + R + 1)))
    else Err IndexError.
Proof.
  destruct (Nat.ltb_spec (m + 1) (length y)) as [Hlt | Hge].
  - rewrite build_window_Ok by exact Hlt. reflexivity.
  - unfold BERTLM.build_window. rewrite setitem_Err by exact Hge.
    reflexivity.
Qed.

(** X1. [build_window] on a document [y] and a loop index [m]: when the
    target position [m + 1] is outside the document the assignment of the
    mask raises [IndexError]; otherwise, in each of the four padding
    branches, the result is [R - m] pad ids, the tokens
    [max(0, m - R) .. hi - 1] of the masked document with
    [hi = min(N - 1, m + R + 1)], and [m + R + 1 - hi] pad ids. *)
Theorem build_window_cases (self : BERT) (y : list nat) (R m : nat) :
  BERTLM.build_window self y R m =
    if m + 1 <? length y then
      Ok (repeat (pad self) (R - m)
          ++ slice (masked_ids self y m) (m - R)
                   (Nat.min (length y - 1) (m + R + 1))
          ++ repeat (pad self)
                    (m + R + 1 - Nat.min (length y - 1) (m + R + 1)))
    else Err IndexError.
Proof. apply build_window_closed. Qed.

(** X2. The window of the last token of the document (the end marker),
    for R >= 1: the slice stops before the target, so the window is made
    of pad ids and of the unmasked tokens before the target only, and the
    offset R + 1 that the scores are read at holds a pad id. The mask id
    is not put into this window. *)
Theorem last_window_has_no_mask (self : BERT) (y : list nat) (R m : nat) :
  1 <= R -> m + 2 = length y ->
  BERTLM.build_window self y R m =
    Ok (repeat (pad self) (R - m) ++ slice y (m - R) (m + 1)
        ++ repeat (pad self) R) /\
  nth_error (repeat (pad self) (R - m) ++ slice y (m - R) (m + 1)
             ++ repeat (pad self) R) (R + 1) = Some (pad self).
Proof.
  intros HR Hm.
  destruct (window_of_last self y R m HR Hm) as [E Hn].
  rewrite build_window_Ok by lia. rewrite <- E. split; [reflexivity | exact Hn].
Qed.

Lemma last_window_has_no_mask_witness :
  BERTLM.build_window Toy.bert [2; 5; 3] 20 1 =
    Ok (repeat 0 19 ++ [2; 5] ++ repeat 0 20).
Proof.
  exact (proj1 (last_window_has_no_mask Toy.bert [2; 5; 3] 20 1
                  ltac:(lia) eq_refl)).
Defined.

Lemma nth_error_masked_ids (self : BERT) (y : list nat) (m i : nat) :
  m + 1 < length y ->
  nth_error (masked_ids self y m) i =
    if i =? m + 1 then Some (mask_tok self) else nth_error y i.
Proof.
  intros Hm. destruct (Nat.eqb_spec i (m + 1)) as [-> | Hne].
  - apply nth_error_masked_ids_mask. exact Hm.
  - unfold masked_ids.
    destruct (Nat.lt_ge_cases i (m + 1)) as [Hlt | Hge].
    + rewrite nth_error_app1 by (rewrite length_firstn; lia).
      rewrite nth_error_firstn.
      destruct (Nat.ltb_spec i (m + 1)); [reflexivity | lia].
    + rewrite nth_error_app2 by (rewrite length_firstn; lia).
      rewrite length_firstn.
      replace (Nat.min (m + 1) (length y)) with (m + 1) by lia.
      destruct (i - (m + 1)) as [| k] eqn:E; [lia |].
      simpl. rewrite nth_error_skipn. f_equal. lia.
Qed.

(** X3. No window depends on the last token of the document: the slice
    never reaches position N - 1, so the id of the end marker is used as
    a target only and is never part of the input of the model. *)
Theorem windows_ignore_last_token (self : BERT) (l : list nat) (a b : nat)
    (R m : nat) :
  BERTLM.build_window self (l ++ [a]) R m =
  BERTLM.build_window self (l ++ [b]) R m.
Proof.
  rewrite !build_window_closed, !last_length.
  destruct (Nat.ltb_spec (m + 1) (S (length l))) as [Hlt | Hge];
    [| reflexivity].
  replace (S (length l) - 1) with (length l) by lia.
  f_equal. f_equal. f_equal.
  apply nth_error_ext. intros i.
  set (hi := Nat.min (length l) (m + R + 1)).
  destruct (Nat.lt_ge_cases i (hi - (m - R))) as [Hi | Hi].
  - rewrite !nth_error_slice by exact Hi.
    rewrite !nth_error_masked_ids by (rewrite last_length; lia).
    destruct (Nat.eqb_spec (m - R + i) (m + 1)); [reflexivity |].
    rewrite !nth_error_app1 by lia. reflexivity.
  - assert (Hlen : forall c, length (slice (masked_ids self (l ++ [c]) m)
                                          (m - R) hi) = hi - (m - R)).
    { intros c. apply length_slice.
      rewrite length_masked_ids by (rewrite last_length; lia).
      rewrite last_length. lia. }
    rewrite !(proj2 (nth_error_None _ _)); [reflexivity | |];
      rewrite Hlen; exact Hi.
Qed.

(** What a successful first loop returns. *)
Lemma build_batches_inv (self : BERT) (y : list nat) (R batch_size : nat)
    (bs : list (list (list nat) * list nat)) :
  BERTLM.build_batches self y R batch_size = Ok bs ->
  0 < batch_size /\
  bs = map (batch_of self y R batch_size)
           (group_starts (length y) batch_size) /\
  forall min_ix, In min_ix (group_starts (length y) batch_size) ->
                 group_indices (length y) batch_size min_ix <> [].
Proof.
  intros H.
  assert (HB : 0 < batch_size).
  { destruct batch_size; [discriminate H | lia]. }
  rewrite build_batches_unfold in H by exact HB.
  apply mapM_Forall2 in H.
  split; [exact HB |]. split.
  - apply Forall2_map_eq. eapply Forall2_impl; [| exact H].
    intros a b Hab. apply batch_step_inv in Hab. exact Hab.
  - intros min_ix Hin Hempty.
    destruct (Forall2_nth_elim _ _ _ (Forall2_flip H)) as [_ Hnth].
    apply In_nth_error in Hin. destruct Hin as [i Hi].
    destruct (Hnth i min_ix Hi) as [b [_ Hb]].
    rewrite (batch_step_empty self y R batch_size min_ix Hempty) in Hb.
    discriminate.
Qed.

Lemma map_targets_seq (y : list nat) :
  map (fun m => nth (m + 1) y 0) (seq 0 (length y - 1)) = tl y.
Proof.
  apply nth_error_ext. intros i.
  rewrite nth_error_map, nth_error_seq, nth_error_tl.
  destruct (Nat.ltb_spec i (length y - 1)) as [Hi | Hi];
    cbn [option_map Nat.add].
  - replace (i + 1) with (S i) by lia.
    symmetry. apply nth_error_nth'. lia.
  - symmetry. apply nth_error_None. lia.
Qed.

(** X4. The batches of a successful first loop: every batch holds between
    1 and [batch_size] windows with as many targets, every window has
    width 2R + 1, there are [ceil(N / batch_size)] batches, and the targets
    of all batches, in order, are the token ids of the document without
    the first one. *)
Theorem batches_invariant (self : BERT) (y : list nat) (R batch_size : nat)
    (bs : list (list (list nat) * list nat)) :
  BERTLM.build_batches self y R batch_size = Ok bs ->
  Forall (fun b => 1 <= length (fst b) <= batch_size /\
                   length (snd b) = length (fst b) /\
                   Forall (fun w => length w = 2 * R + 1) (fst b)) bs /\
  length bs = (length y + batch_size - 1) / batch_size /\
  concat (map snd bs) = tl y /\
  length (concat (map fst bs)) = length y - 1.
Proof.
  intros H. destruct (build_batches_inv _ _ _ _ _ H) as [HB [-> Hne]].
  split; [| split; [| split]].
  - apply Forall_forall. intros b Hb.
    apply in_map_iff in Hb. destruct Hb as [min_ix [<- Hin]].
    specialize (Hne min_ix Hin). unfold batch_of. cbn [fst snd].
    rewrite !length_map. split; [| split; [reflexivity |]].
    + apply group_nonempty_iff in Hne.
      unfold group_indices. rewrite length_seq. lia.
    + apply Forall_forall. intros w Hw.
      apply in_map_iff in Hw. destruct Hw as [m [<- Hm]].
      apply length_window_of. eapply in_group_indices; exact Hm.
  - unfold group_starts. rewrite !length_map, length_seq. reflexivity.
  - rewrite map_map. unfold batch_of. cbn [snd].
    rewrite <- (map_map (group_indices (length y) batch_size)
                        (map (fun m => nth (m + 1) y 0))).
    rewrite <- concat_map, concat_group_indices by exact HB.
    apply map_targets_seq.
  - rewrite map_map. unfold batch_of. cbn [fst].
    rewrite <- (map_map (group_indices (length y) batch_size)
                        (map (window_of self y R))).
    rewrite <- concat_map, concat_group_indices by exact HB.
    rewrite length_map, length_seq. reflexivity.
Qed.

Lemma batches_invariant_witness :
  exists bs,
    BERTLM.build_batches Toy.bert [2; 5; 5; 5; 5; 5; 5; 3] 2 3 = Ok bs /\
    length bs = 3 /\
    concat (map snd bs) = [5; 5; 5; 5; 5; 5; 3].
Proof.
  eexists. split; [vm_compute; reflexivity |].
  destruct (batches_invariant Toy.bert [2; 5; 5; 5; 5; 5; 5; 3] 2 3 _
              eq_refl) as [_ [Hl [Hc _]]].
  split; [exact Hl | exact Hc].
Defined.

(** X5. The outcome of the first loop, for every document and every
    batch size: a batch size of 0 makes [range] raise [ValueError]; an
    empty document gives no batch; a batch size that divides N - 1 makes
    the concatenation of the empty last group raise [RuntimeError]; in
    every other case the loop returns the batches of the groups that
    start at the multiples of the batch size below N. *)
Theorem build_batches_outcome (self : BERT) (y : list nat)
    (R batch_size : nat) :
  BERTLM.build_batches self y R batch_size =
    if batch_size =? 0 then Err ValueError
    else if length y =? 0 then Ok []
    else if (length y - 1) mod batch_size =? 0 then Err RuntimeError
    else Ok (map (batch_of self y R batch_size)
                 (group_starts (length y) batch_size)).
Proof.
  destruct (Nat.eqb_spec batch_size 0) as [-> | HB]; [reflexivity |].
  destruct (Nat.eqb_spec (length y) 0) as [HN | HN].
  - rewrite build_batches_unfold by lia. unfold group_starts.
    rewrite HN. rewrite Nat.div_small by lia. reflexivity.
  - destruct (Nat.eqb_spec ((length y - 1) mod batch_size) 0) as [Hm | Hm].
    + apply build_batches_Err; lia.
    + apply build_batches_Ok; [lia | exact Hm].
Qed.

(** ** When the checkers return, and when they cannot *)

(** X6. On a well-formed model with a vocabulary of V entries, with
    R >= 1 and a positive batch size that does not divide N - 1, the
    masked checker returns a payload, with N token surfaces and N - 1 rank
    entries and lists of alternatives. *)
Theorem masked_returns_payload (np : Numerics) (self : BERT) (V : nat)
    (R batch_size : nat) (in_text : pystr) (topk : nat) :
  argsort_ok np -> bert_ok np self V ->
  1 <= R -> 0 < batch_size ->
  (length (token_ids (Masked self R batch_size) in_text) - 1)
    mod batch_size <> 0 ->
  exists p,
    run np (Masked self R batch_size) in_text topk = Ok p /\
    length (bpe_strings p) =
      length (token_ids (Masked self R batch_size) in_text) /\
    length (real_topk p) =
      length (token_ids (Masked self R batch_size) in_text) - 1 /\
    length (pred_topk p) =
      length (token_ids (Masked self R batch_size) in_text) - 1.
Proof.
  intros Hs Hok HR HB Hmod.
  destruct (masked_run_total np self V R batch_size in_text topk
              Hs Hok HR HB Hmod) as [p Hp].
  exists p. split; [exact Hp |].
  apply run_payload_lengths with (np := np) (topk := topk). exact Hp.
Qed.

Lemma masked_returns_payload_witness :
  exists p,
    run Toy.numerics (Masked Toy.bert 2 3)
        (str "word word word word word word") 5 = Ok p /\
    length (real_topk p) = 7.
Proof.
  destruct (masked_returns_payload Toy.numerics Toy.bert 8 2 3
              (str "word word word word word word") 5
              toy_argsort_ok toy_bert_ok)
    as [p [Hp [_ [Hr _]]]]; [lia | lia | vm_compute; lia |].
  exists p. split; [exact Hp | exact Hr].
Defined.

(** X7. On a well-formed model with a vocabulary of V entries, whose
    decoder knows every id below V, the causal checkers return a payload
    for every text with at least one token; a text of one token gets one
    surface and no rank entry. *)
Theorem causal_returns_payload (np : Numerics) (v : causal_variant)
    (self : GPT2) (V : nat) (in_text : pystr) (topk : nat) :
  argsort_ok np -> gpt2_ok np self V ->
  token_ids (Causal v self) in_text <> [] ->
  exists p,
    run np (Causal v self) in_text topk = Ok p /\
    length (bpe_strings p) = length (token_ids (Causal v self) in_text) /\
    length (real_topk p) = length (token_ids (Causal v self) in_text) - 1 /\
    (length (token_ids (Causal v self) in_text) = 1 ->
     real_topk p = [] /\ pred_topk p = []).
Proof.
  intros Hs Hok Hne.
  destruct (causal_run_total np v self V in_text topk Hs Hok Hne) as [p Hp].
  exists p. split; [exact Hp |].
  destruct (run_payload_lengths np _ in_text topk p Hp) as [Hb [Hr Hpr]].
  split; [exact Hb |]. split; [exact Hr |].
  intros H1. rewrite H1 in Hr, Hpr. simpl in Hr, Hpr.
  split; apply length_zero_iff_nil; assumption.
Qed.

Lemma causal_returns_payload_witness :
  exists p,
    run Toy.numerics (Causal aragpt2_base Toy.gpt2) (str "word") 5 = Ok p /\
    real_topk p = [].
Proof.
  destruct (causal_returns_payload Toy.numerics aragpt2_base Toy.gpt2 8
              (str "word") 5 toy_argsort_ok toy_gpt2_ok)
    as [p [Hp [_ [_ H1]]]]; [vm_compute; discriminate |].
  exists p. split; [exact Hp |]. apply H1. reflexivity.
Defined.

Lemma first_batch (self : BERT) (y : list nat) (R batch_size : nat) :
  0 < batch_size -> 2 <= length y ->
  (length y - 1) mod batch_size <> 0 ->
  exists ms rest,
    BERTLM.build_batches self y R batch_size =
      Ok ((window_of self y R 0 :: map (window_of self y R) ms,
           nth 1 y 0 :: map (fun m => nth (m + 1) y 0) ms) :: rest).
Proof.
  intros HB HN Hmod. rewrite build_batches_Ok by assumption.
  unfold group_starts.
  destruct ((length y + batch_size - 1) / batch_size) as [| g] eqn:E.
  - exfalso.
    assert (0 < (length y + batch_size - 1) / batch_size); [| lia].
    apply (group_starts_mem (length y) batch_size 0 HB). lia.
  - rewrite <- cons_seq. cbn [map]. unfold batch_of at 1.
    unfold group_indices at 1 2.
    destruct (Nat.min (0 * batch_size + batch_size) (length y - 1)
              - 0 * batch_size) as [| n] eqn:En; [lia |].
    rewrite <- cons_seq. cbn [map Nat.mul Nat.add].
    eexists. eexists. reflexivity.
Qed.

(** X8. With [max_context = 0] the window has width 1 while the scores
    are read at offset 1: on a model that returns one score vector per
    window position the masked checker fails with [IndexError] as soon as
    there is a window to score. *)
Theorem zero_context_fails (np : Numerics) (self : BERT)
    (batch_size : nat) (in_text : pystr) (topk : nat) :
  (forall w, exists out, bert_model self w = Ok out /\
                         length out = length w) ->
  0 < batch_size ->
  2 <= length (token_ids (Masked self 0 batch_size) in_text) ->
  (length (token_ids (Masked self 0 batch_size) in_text) - 1)
    mod batch_size <> 0 ->
  run np (Masked self 0 batch_size) in_text topk = Err IndexError.
Proof.
  intros Hshape HB HN Hmod. cbn [run].
  unfold BERTLM.check_probabilities. unfold token_ids in HN, Hmod.
  set (tokenized_text :=
         tokenize self (str "[CLS] " ++ bert_prep self in_text ++ str " [SEP]"))
    in *.
  set (y := map (convert_token_to_id self) tokenized_text) in *.
  destruct (first_batch self y 0 batch_size HB HN Hmod)
    as [ms [rest Hb]].
  rewrite Hb. cbn [bind mapM]. unfold BERTLM.score_batch at 1.
  destruct (mapM_total (bert_model self)
              (window_of self y 0 0 :: map (window_of self y 0) ms))
    as [out Hout].
  { intros w _. destruct (Hshape w) as [o [Ho _]]. exists o; exact Ho. }
  rewrite Hout. cbn [bind].
  cbn [mapM] in Hout.
  destruct (Hshape (window_of self y 0 0)) as [o0 [Ho0 Hl0]].
  rewrite Ho0 in Hout. cbn [bind] in Hout.
  destruct (mapM (bert_model self) (map (window_of self y 0) ms))
    as [os |]; [| discriminate Hout].
  injection Hout as <-. cbn [mapM].
  rewrite length_window_of in Hl0 by lia.
  unfold getitem at 1.
  rewrite (proj2 (nth_error_None o0 (0 + 1))) by (rewrite Hl0; lia).
  reflexivity.
Qed.

Lemma zero_context_fails_witness :
  run Toy.numerics (Masked Toy.bert 0 20) (str "word") 5 = Err IndexError.
Proof.
  apply zero_context_fails.
  - intros w. exists (Toy.forward 0 w).
    split; [reflexivity | apply toy_forward_shape].
  - lia.
  - vm_compute; lia.
  - vm_compute; lia.
Defined.

(** X9. An exception of the forward pass is the exception of the call: in
    the causal checkers for the one forward pass, in the masked checker
    for the forward pass on the first window, which runs once the first
    loop has built its batches. *)
Theorem model_failure_propagates (np : Numerics) (c : checker)
    (in_text : pystr) (topk : nat) (e : error) :
  match c with
  | Causal _ self => gpt2_model self (token_ids c in_text) = Err e
  | Masked self R batch_size =>
      0 < batch_size /\ 2 <= length (token_ids c in_text) /\
      (length (token_ids c in_text) - 1) mod batch_size <> 0 /\
      bert_model self (window_of self (token_ids c in_text) R 0) = Err e
  end ->
  run np c in_text topk = Err e.
Proof.
  destruct c as [v self | self R batch_size]; cbn [run].
  - intros H. rewrite causal_check_as_base.
    unfold AraGPT2Base.check_probabilities. cbn [token_ids] in H.
    rewrite H. reflexivity.
  - intros [HB [HN [Hmod He]]].
    unfold BERTLM.check_probabilities. unfold token_ids in HN, Hmod, He.
    set (y := map (convert_token_to_id self) _) in *.
    destruct (first_batch self y R batch_size HB HN Hmod)
      as [ms [rest Hb]].
    rewrite Hb. cbn [bind mapM]. unfold BERTLM.score_batch at 1.
    cbn [mapM]. rewrite He. reflexivity.
Qed.

Lemma model_failure_propagates_witness :
  run Toy.numerics (Causal aragpt2_mega Toy.gpt2) (str "") 7
    = Err (ModelError 0) /\
  run Toy.numerics (Masked Toy.bert_failing 20 20) (str "word") 5
    = Err (ModelError 1).
Proof.
  split.
  - exact (model_failure_propagates Toy.numerics
             (Causal aragpt2_mega Toy.gpt2) (str "") 7 (ModelError 0)
             eq_refl).
  - apply (model_failure_propagates Toy.numerics
             (Masked Toy.bert_failing 20 20) (str "word") 5 (ModelError 1)).
    repeat split; vm_compute; try lia; discriminate.
Defined.

(** ** How the parts of a payload fit together *)

Lemma payload_position (np : Numerics) (c : checker) (in_text : pystr)
    (topk : nat) (p : Payload) (i : nat) :
  run np c in_text topk = Ok p ->
  (forall e, nth_error (real_topk p) i = Some e ->
             entry_at np c in_text i e) /\
  (forall pred, nth_error (pred_topk p) i = Some pred ->
                alternatives_at np c in_text topk i pred) /\
  (i < length (real_topk p) <-> i < length (pred_topk p)).
Proof.
  intros Hrun.
  destruct (run_payload np c in_text topk p Hrun) as [_ [Hr Ha]].
  destruct (Forall2_nth_elim _ _ _ Hr) as [Lr Nr].
  destruct (Forall2_nth_elim _ _ _ Ha) as [La Na].
  rewrite length_seq in Lr, La.
  split; [| split; [| lia]].
  - intros e He. destruct (Nr i e He) as [a [Hi Hent]].
    rewrite nth_error_seq in Hi.
    destruct (Nat.ltb_spec i (length (targets c in_text))); [| discriminate].
    injection Hi as <-. exact Hent.
  - intros pred Hp. destruct (Na i pred Hp) as [a [Hi Halt]].
    rewrite nth_error_seq in Hi.
    destruct (Nat.ltb_spec i (length (targets c in_text))); [| discriminate].
    injection Hi as <-. exact Halt.
Qed.

(** *** The alternatives with their token ids *)

Lemma Forall2_combine_lists {A B C : Type} (P : A -> B -> Prop)
    (P' : A -> C -> Prop) (ids : list A) (l1 : list B) (l2 : list C) :
  Forall2 P ids l1 -> Forall2 P' ids l2 ->
  Forall2 (fun j a => P j (fst a) /\ P' j (snd a)) ids (combine l1 l2).
Proof.
  intros H. revert l2.
  induction H as [| j b ids l1 Hjb _ IH]; intros l2 H2;
    inversion H2; subst; simpl; constructor; auto.
Qed.

Lemma Forall2_map_self {A B : Type} (f : A -> B) (l : list A) :
  Forall2 (fun j s => s = f j) l (map f l).
Proof. induction l; simpl; constructor; auto. Qed.

Lemma mapM_getitem_Forall2 (row : list Q) (sp : list nat) (probs : list Q) :
  mapM (getitem row) sp = Ok probs ->
  Forall2 (fun j x => x = prob_at row j) sp probs.
Proof.
  intros H. apply mapM_Forall2 in H.
  eapply Forall2_impl; [| exact H].
  intros j x Hj. cbv beta in Hj. apply getitem_Ok in Hj.
  unfold prob_at. symmetry. apply nth_error_nth. exact Hj.
Qed.

Lemma causal_run_listed (np : Numerics) (v : causal_variant) (self : GPT2)
    (in_text : pystr) (topk : nat) (p : Payload) :
  run np (Causal v self) in_text topk = Ok p ->
  Forall2 (listed_at np (Causal v self) in_text topk)
          (seq 0 (length (targets (Causal v self) in_text))) (pred_topk p).
Proof.
  intros H. cbn [run] in H. rewrite causal_check_as_base in H.
  unfold AraGPT2Base.check_probabilities in H.
  unfold targets. cbn [token_ids].
  set (context := enc_encode self (gpt2_prep self in_text)) in *.
  inv_bind H as logits Hlogits.
  set (yhat := map (softmax np) (removelast logits)) in *.
  set (sorted_preds := map (fun row => argsort np (map Qopp row)) yhat) in *.
  inv_bind H as pos Hpos. inv_bind H as probs Hprobs.
  inv_bind H as strs Hstrs. inv_bind H as preds Hpreds.
  injection H as <-. cbn [pred_topk].
  apply Forall2_map_r with
    (P := fun i pred0 => exists row,
              distribution np (Causal v self) in_text i = Ok row /\
              Forall2 (fun j a => enc_decoder self j = Some (fst a) /\
                                  snd a = round5 (prob_at row j))
                      (firstn topk (argsort np (map Qopp row))) pred0).
  - intros i pred0 [row [Hd Hl]]. exists row. split; [exact Hd |].
    unfold lists_ids.
    apply Forall2_map_r with
      (P := fun j a => enc_decoder self j = Some (fst a) /\
                       snd a = round5 (prob_at row j));
      [| exact Hl].
    intros j a [Hdec Hpr]. cbn [fst snd surface_of rounding].
    split; [exists (fst a); split; [exact Hdec | reflexivity] | exact Hpr].
  - apply mapM_Forall2 in Hpreds.
    eapply Forall2_impl; [| exact Hpreds].
    intros i pred0 Hf. cbv beta in Hf.
    inv_bind Hf as sp Hsp. inv_bind Hf as toks Htoks.
    inv_bind Hf as row Hrow. inv_bind Hf as probs' Hprobs'.
    injection Hf as <-.
    exists row. split.
    + cbn [distribution token_ids]. fold context. rewrite Hlogits.
      cbn [bind]. exact Hrow.
    + apply getitem_Ok in Hsp, Hrow.
      unfold sorted_preds in Hsp. rewrite nth_error_map, Hrow in Hsp.
      simpl in Hsp. injection Hsp as <-.
      apply Forall2_combine_lists
        with (P := fun j s => enc_decoder self j = Some s)
             (P' := fun j x => x = round5 (prob_at row j)).
      * apply mapM_Forall2 in Htoks.
        eapply Forall2_impl; [| exact Htoks].
        intros j s Hj. cbv beta in Hj.
        destruct (enc_decoder self j); simpl in Hj; congruence.
      * apply Forall2_map_r with (P := fun j x => x = prob_at row j);
          [intros j x ->; reflexivity |].
        apply mapM_getitem_Forall2. exact Hprobs'.
Qed.

Section MaskedListed.

Variable np : Numerics.
Variable self : BERT.
Variable y : list nat.
Variables topk R batch_size : nat.

Lemma score_batch_listed (ms : list nat) (rt : list (nat * Q))
    (pt : list (list (pystr * Q))) :
  (forall m, In m ms -> m + 1 < length y) ->
  BERTLM.score_batch np self topk R
    (map (window_of self y R) ms, map (fun m => nth (m + 1) y 0) ms)
    = Ok (rt, pt) ->
  Forall2 (fun m pred => exists row,
               (w <- BERTLM.build_window self y R m ;;
                out <- bert_model self w ;;
                logits <- getitem out (R + 1) ;;
                Ok (softmax np logits)) = Ok row /\
               Forall2 (fun j a => fst a = convert_id_to_token self j /\
                                   snd a = prob_at row j)
                       (firstn topk (argsort np (map Qopp row))) pred)
          ms pt.
Proof.
  intros Hms H. unfold BERTLM.score_batch in H.
  inv_bind H as out Hout. inv_bind H as logits Hlogits.
  set (yhat := map (softmax np) logits) in *.
  set (sorted_preds := map (fun row => argsort np (map Qopp row)) yhat) in *.
  inv_bind H as pos Hpos. inv_bind H as probs Hprobs.
  inv_bind H as pred Hpred. injection H as <- <-.
  pose proof (mapM_length _ _ _ Hout) as Lout. rewrite length_map in Lout.
  pose proof (mapM_length _ _ _ Hlogits) as Llogits.
  assert (Lyhat : length yhat = length ms)
    by (unfold yhat; rewrite length_map; lia).
  destruct (mapM_seq_nth _ _ _ Hpred) as [Lpred Npred].
  apply Forall2_nth_intro; [lia |].
  intros i m pr Hm Hpr.
  assert (Hlt : i < length yhat)
    by (rewrite Lyhat; apply nth_error_Some; congruence).
  assert (Hw : nth_error (map (window_of self y R) ms) i =
               Some (window_of self y R m))
    by (rewrite nth_error_map, Hm; reflexivity).
  destruct (mapM_nth_fwd _ _ _ Hout i _ Hw) as [o [Ho Hmo]].
  destruct (mapM_nth_fwd _ _ _ Hlogits i _ Ho) as [l [Hl Hol]].
  exists (softmax np l). split.
  { rewrite build_window_Ok by (apply Hms; eapply nth_error_In; exact Hm).
    cbn [bind]. rewrite Hmo. cbn [bind]. rewrite Hol. reflexivity. }
  assert (Hrow : nth_error yhat i = Some (softmax np l))
    by (unfold yhat; rewrite nth_error_map, Hl; reflexivity).
  destruct (Npred i Hlt) as [pr' [Hpr' Hf]].
  rewrite Hpr in Hpr'. injection Hpr' as <-.
  inv_bind Hf as sp Hsp. inv_bind Hf as row Hrow'.
  inv_bind Hf as ps Hps. injection Hf as <-.
  apply getitem_Ok in Hsp, Hrow'.
  rewrite Hrow in Hrow'. injection Hrow' as <-.
  unfold sorted_preds in Hsp. rewrite nth_error_map, Hrow in Hsp.
  simpl in Hsp. injection Hsp as <-.
  apply Forall2_combine_lists
    with (P := fun j s => s = convert_id_to_token self j)
         (P' := fun j x => x = prob_at (softmax np l) j).
  - apply Forall2_map_self.
  - apply mapM_getitem_Forall2. exact Hps.
Qed.

End MaskedListed.

Lemma masked_run_listed (np : Numerics) (self : BERT) (R batch_size : nat)
    (in_text : pystr) (topk : nat) (p : Payload) :
  run np (Masked self R batch_size) in_text topk = Ok p ->
  Forall2 (listed_at np (Masked self R batch_size) in_text topk)
          (seq 0 (length (targets (Masked self R batch_size) in_text)))
          (pred_topk p).
Proof.
  intros H. cbn [run] in H. unfold BERTLM.check_probabilities in H.
  unfold listed_at, targets, distribution, token_ids.
  set (tokenized_text :=
         tokenize self (str "[CLS] " ++ bert_prep self in_text ++ str " [SEP]"))
    in *.
  set (y := map (convert_token_to_id self) tokenized_text) in *.
  inv_bind H as batches Hb. inv_bind H as scored Hs. injection H as <-.
  cbn [pred_topk].
  assert (HB : 0 < batch_size).
  { destruct batch_size; [discriminate Hb | lia]. }
  rewrite build_batches_unfold in Hb by exact HB.
  assert (Ebatches : batches =
            map (batch_of self y R batch_size)
                (group_starts (length y) batch_size)).
  { apply Forall2_map_eq. apply mapM_Forall2 in Hb.
    eapply Forall2_impl; [| exact Hb].
    intros a b Hab. apply batch_step_inv in Hab. exact Hab. }
  subst batches.
  apply mapM_Forall2 in Hs.
  assert (Hs' : Forall2
            (fun min_ix sc =>
               BERTLM.score_batch np self topk R
                 (batch_of self y R batch_size min_ix) = Ok sc)
            (group_starts (length y) batch_size) scored).
  { clear - Hs. remember (map _ _) as bs eqn:E in Hs.
    revert E. generalize (group_starts (length y) batch_size).
    induction Hs as [| b sc bs scs Hb _ IH]; intros [| s ss] E;
      simpl in E; try discriminate; constructor.
    - injection E as -> _. exact Hb.
    - apply IH. injection E as _ ->. reflexivity. }
  assert (Hseq : seq 0 (length (tl y)) =
                 concat (map (group_indices (length y) batch_size)
                             (group_starts (length y) batch_size))).
  { rewrite length_tl. symmetry. apply concat_group_indices. exact HB. }
  rewrite Hseq.
  apply Forall2_map_r with
    (P := fun m pred => exists row,
              (w <- BERTLM.build_window self y R m ;;
               out <- bert_model self w ;;
               logits <- getitem out (R + 1) ;;
               Ok (softmax np logits)) = Ok row /\
              Forall2 (fun j a => fst a = convert_id_to_token self j /\
                                  snd a = prob_at row j)
                      (firstn topk (argsort np (map Qopp row))) pred).
  - intros m pred [row [Hd Hl]]. exists row. split; [exact Hd |].
    unfold lists_ids.
    apply Forall2_map_r with
      (P := fun j a => fst a = convert_id_to_token self j /\
                       snd a = prob_at row j);
      [| exact Hl].
    intros j a [Hn Hpr]. cbn [fst snd surface_of rounding].
    rewrite Hn. split; [reflexivity | exact Hpr].
  - apply Forall2_concat with (g := group_indices (length y) batch_size).
    apply Forall2_flip, Forall2_map_l, Forall2_flip.
    eapply Forall2_impl; [| exact Hs'].
    intros min_ix [rt pt] Hsc. cbn [snd].
    apply score_batch_listed in Hsc; [exact Hsc | apply in_group_indices].
Qed.

Lemma run_listed (np : Numerics) (c : checker) (in_text : pystr)
    (topk : nat) (p : Payload) :
  run np c in_text topk = Ok p ->
  Forall2 (listed_at np c in_text topk)
          (seq 0 (length (targets c in_text))) (pred_topk p).
Proof.
  destruct c; [apply causal_run_listed | apply masked_run_listed].
Qed.

(** X10. In a payload of either checker every predicted position has a
    rank entry and a list of alternatives, and the list shows the first
    [topk] token ids of the sorted order of the position's distribution,
    each with the surface of its token and with its probability. When the
    rank of the ground truth is below [topk], the entry of the list at
    index [rank] shows the surface of the ground-truth token and the
    probability of the rank entry; when it is not, the ground-truth token
    is not among the listed ids. *)
Theorem ranked_token_is_listed (np : Numerics) (c : checker)
    (in_text : pystr) (topk : nat) (p : Payload) :
  run np c in_text topk = Ok p ->
  forall i, i < length (targets c in_text) ->
  exists rank prob t pred row,
    nth_error (real_topk p) i = Some (rank, prob) /\
    nth_error (targets c in_text) i = Some t /\
    nth_error (pred_topk p) i = Some pred /\
    distribution np c in_text i = Ok row /\
    lists_ids c row (firstn topk (argsort np (map Qopp row))) pred /\
    (rank < topk ->
     exists a, nth_error pred rank = Some a /\
               surface_of c t (fst a) /\ snd a = prob) /\
    (topk <= rank -> ~ In t (firstn topk (argsort np (map Qopp row)))).
Proof.
  intros Hrun i Hi.
  destruct (run_payload np c in_text topk p Hrun) as [_ [Hr _]].
  pose proof (run_listed np c in_text topk p Hrun) as Hl.
  pose proof (Forall2_length Hr) as Lr. rewrite length_seq in Lr.
  pose proof (Forall2_length Hl) as Ll. rewrite length_seq in Ll.
  destruct (nth_error (real_topk p) i) as [[rank prob] |] eqn:He;
    [| apply nth_error_None in He; lia].
  destruct (nth_error (pred_topk p) i) as [pred |] eqn:Ep;
    [| apply nth_error_None in Ep; lia].
  destruct (Forall2_nth_elim _ _ _ Hr) as [_ Hrn].
  destruct (Hrn i _ He) as [a [Ha [row [t [Hd [Ht [Hw [Hlt Hs]]]]]]]].
  destruct (Forall2_nth_elim _ _ _ Hl) as [_ Hln].
  destruct (Hln i _ Ep) as [a' [Ha' [row' [Hd' Hids]]]].
  rewrite nth_error_seq in Ha, Ha'.
  destruct (Nat.ltb_spec i (length (targets c in_text))); [| discriminate].
  injection Ha as <-. injection Ha' as <-. cbn [Nat.add fst snd] in *.
  rewrite Hd in Hd'. injection Hd' as <-.
  exists rank, prob, t, pred, row.
  split; [reflexivity |]. split; [exact Ht |]. split; [reflexivity |].
  split; [exact Hd |]. split; [exact Hids |].
  apply where_first_Ok in Hw. destruct Hw as [Hn Hmin].
  split.
  - intros Hk.
    assert (Hf : nth_error (firstn topk (argsort np (map Qopp row))) rank
                 = Some t).
    { rewrite nth_error_firstn.
      destruct (Nat.ltb_spec rank topk); [exact Hn | lia]. }
    destruct (Forall2_nth_elim _ _ _ Hids) as [Hlen Hnth].
    destruct (nth_error pred rank) as [b |] eqn:Eb.
    + destruct (Hnth rank b Eb) as [j [Hj [Hsurf Hpr]]].
      rewrite Hf in Hj. injection Hj as <-.
      exists b. split; [reflexivity |]. split; [exact Hsurf |].
      rewrite Hpr, Hs. reflexivity.
    + apply nth_error_None in Eb.
      assert (rank < length (firstn topk (argsort np (map Qopp row))))
        by (apply nth_error_Some; congruence).
      lia.
  - intros Hk Hin. apply In_nth_error in Hin. destruct Hin as [k Hk'].
    assert (Hlk : k < topk).
    { assert (k < length (firstn topk (argsort np (map Qopp row))))
        by (apply nth_error_Some; congruence).
      rewrite length_firstn in *. lia. }
    rewrite nth_error_firstn in Hk'.
    destruct (Nat.ltb_spec k topk); [| lia].
    apply (Hmin k t); [lia | exact Hk' | reflexivity].
Qed.

Lemma ranked_token_is_listed_witness :
  exists pred a,
    nth_error (pred_topk Toy.payload_masked) 0 = Some pred /\
    nth_error pred 1 = Some a /\
    surface_of (Masked Toy.bert 20 20) 5 (fst a) /\
    snd a = Qmake 8 30.
Proof.
  assert (E : run Toy.numerics (Masked Toy.bert 20 20) (str "word") 5
              = Ok Toy.payload_masked) by (vm_compute; reflexivity).
  destruct (ranked_token_is_listed Toy.numerics (Masked Toy.bert 20 20)
              (str "word") 5 Toy.payload_masked E 0)
    as [rank [prob [t [pred [row [He [Ht [Hp [_ [_ [Hin _]]]]]]]]]]];
    [vm_compute; lia |].
  assert (He' : nth_error (real_topk Toy.payload_masked) 0
                = Some (1, Qmake 8 30)) by reflexivity.
  assert (Ht' : nth_error (targets (Masked Toy.bert 20 20) (str "word")) 0
                = Some 5) by reflexivity.
  rewrite He' in He. injection He as <- <-.
  rewrite Ht' in Ht. injection Ht as <-.
  destruct Hin as [a [Ha [Hs Hpr]]]; [lia |].
  exists pred, a.
  split; [exact Hp |]. split; [exact Ha |]. split; [exact Hs | exact Hpr].
Defined.

(** X11. The first alternative of a position is a most probable entry of
    its distribution: no vocabulary entry has a greater probability (after
    the rounding of the checker) than the first alternative. *)
Theorem first_alternative_is_maximum (np : Numerics) (c : checker)
    (in_text : pystr) (topk : nat) (p : Payload) (i : nat)
    (a : pystr * Q) (rest : list (pystr * Q)) :
  argsort_ok np ->
  run np c in_text topk = Ok p ->
  nth_error (pred_topk p) i = Some (a :: rest) ->
  exists row,
    distribution np c in_text i = Ok row /\
    forall j, j < length row ->
              (rounding c (prob_at row j) <= snd a)%Q.
Proof.
  intros Hsort Hrun Hp.
  destruct (payload_position np c in_text topk p i Hrun) as [_ [Halt _]].
  destruct (Halt _ Hp) as [row [Hd [Hl [Hsnd _]]]].
  exists row. split; [exact Hd |].
  destruct (Hsort (map Qopp row)) as [Hperm Hsorted].
  destruct (argsort np (map Qopp row)) as [| s0 s] eqn:Es.
  { rewrite firstn_nil in Hl. discriminate Hl. }
  destruct topk as [| k]; [discriminate Hl |].
  cbn [firstn map] in Hsnd. injection Hsnd as Ha _.
  intros j Hj. rewrite Ha. apply rounding_mono.
  assert (Hin : In j (s0 :: s)).
  { apply Permutation_sym in Hperm. apply (Permutation_in _ Hperm).
    apply in_seq. rewrite length_map. lia. }
  destruct Hin as [<- | Hin]; [apply Qle_refl |].
  apply StronglySorted_inv in Hsorted. destruct Hsorted as [_ Hf].
  rewrite Forall_forall in Hf. specialize (Hf j Hin).
  rewrite !prob_at_opp in Hf.
  apply Qopp_le_compat in Hf. rewrite !Qopp_involutive in Hf. exact Hf.
Qed.

Lemma first_alternative_is_maximum_witness :
  exists row,
    distribution Toy.numerics (Causal aragpt2_base Toy.gpt2)
      (str "word word the") 0 = Ok row /\
    forall j, j < length row -> (round5 (prob_at row j) <= Qmake 26667 100000)%Q.
Proof.
  exact (first_alternative_is_maximum Toy.numerics
           (Causal aragpt2_base Toy.gpt2) (str "word word the") 3
           Toy.payload_causal 0 (str "[UNK]", Qmake 26667 100000) _
           toy_argsort_ok ltac:(vm_compute; reflexivity) eq_refl).
Defined.

(** ** The postprocessors *)

Lemma startswith_single (c d : N) (t : pystr) :
  startswith (c :: t) [d] = N.eqb c d.
Proof. simpl. destruct (N.eqb c d); destruct t; reflexivity. Qed.

Lemma startswith_nil_single (d : N) : startswith [] [d] = false.
Proof. reflexivity. Qed.

(** Resolves the tests of a postprocessor on a token whose first
    characters are known, or known to differ from the special ones. *)
Ltac resolve_tests :=
  repeat first
    [ rewrite startswith_single
    | rewrite startswith_nil_single
    | match goal with
      | H : N.eqb _ _ = false |- _ => rewrite H
      end
    | match goal with
      | |- context [str ?s] =>
          let v := eval vm_compute in (str s) in change (str s) with v
      end
    | match goal with
      | |- context [N.eqb ?a ?b] =>
          let v := eval vm_compute in (N.eqb a b) in
          match v with
          | true => change (N.eqb a b) with true
          | false => change (N.eqb a b) with false
          end
      end
    | progress (cbv beta iota zeta)
    | progress (cbn [skipn fst snd]) ].

Ltac split_char c k E :=
  destruct (N.eqb c k) eqn:E; [apply N.eqb_eq in E; subst c |].

(** X13. The byte-level postprocessor is idempotent: a surface that it has
    produced is returned unchanged when it is postprocessed again. *)
Theorem byte_level_postprocess_idempotent (token : pystr) :
  AraGPT2Base.postprocess (AraGPT2Base.postprocess token) =
  AraGPT2Base.postprocess token.
Proof.
  destruct token as [| c r]; [reflexivity |].
  unfold AraGPT2Base.postprocess, AraGPT2Base.postprocess_flags.
  split_char c chr_G_dot E1.
  { destruct r as [| d r']; [reflexivity |].
    split_char d chr_a_circ F1; [resolve_tests; reflexivity |].
    split_char d chr_l_caron F2; [resolve_tests; reflexivity |].
    split_char d chr_L_middot F3; [resolve_tests; reflexivity |].
    split_char d chr_L_cedilla F4; [resolve_tests; reflexivity |].
    resolve_tests. reflexivity. }
  split_char c chr_a_circ E2; [resolve_tests; reflexivity |].
  split_char c chr_C_dot E3; [resolve_tests; reflexivity |].
  split_char c chr_l_caron E4; [resolve_tests; reflexivity |].
  split_char c chr_L_middot E5; [resolve_tests; reflexivity |].
  split_char c chr_L_cedilla E6; [resolve_tests; reflexivity |].
  resolve_tests. reflexivity.
Qed.

Lemma startswith_hashes (token : pystr) :
  startswith token (str "##") = true ->
  exists rest, token = 35%N :: 35%N :: rest.
Proof.
  destruct token as [| a [| b rest]]; simpl; try discriminate.
  - destruct (N.eqb a 35); discriminate.
  - destruct (N.eqb_spec a 35) as [-> | _]; [| discriminate].
    destruct (N.eqb_spec b 35) as [-> | _]; [| discriminate].
    intros _. exists rest; reflexivity.
Qed.

Lemma pystr_eqb_eq (a b : pystr) : pystr_eqb a b = true <-> a = b.
Proof.
  unfold pystr_eqb. destruct (list_eq_dec N.eq_dec a b); split;
    congruence.
Qed.

(** X14. Both markers at once: the byte-level postprocessor never sets
    the leading-space flag and the line-break flag together; the
    continuation-marker postprocessor sets both for the token [SEP] and
    for no other token, and renders it with the line-break marker first,
    then the leading-space marker. *)
Theorem both_markers_only_for_sep (f : family) (token : pystr) :
  (fst (fst (postprocess_flags f token)) &&
   snd (fst (postprocess_flags f token)) = true
   <-> f = continuation_marker /\ token = str "[SEP]") /\
  postprocess continuation_marker (str "[SEP]") =
    chr_C_dot :: chr_G_dot :: str "[SEP]".
Proof.
  split; [| reflexivity].
  destruct f; cbn [postprocess_flags].
  - split; [| intros [H _]; discriminate H].
    unfold AraGPT2Base.postprocess_flags.
    destruct (startswith token [chr_G_dot]);
      [| destruct (startswith token [chr_a_circ]);
         [| destruct (startswith token [chr_C_dot])]];
      cbn [fst snd andb]; discriminate.
  - unfold BERTLM.postprocess_flags.
    destruct (startswith token (str "##")) eqn:E; cbn [fst snd andb].
    + split; [discriminate |]. intros [_ ->]. discriminate E.
    + rewrite pystr_eqb_eq. split; [auto | tauto].
Qed.

(** X15. The continuation-marker postprocessor changes the length of
    every token: a continuation loses its two marker characters, the
    token [SEP] gains two markers and every other token gains one. So it
    never returns a token unchanged. *)
Theorem continuation_postprocess_length (token : pystr) :
  length (BERTLM.postprocess token) + 2 =
    (if startswith token (str "##") then length token
     else if pystr_eqb token (str "[SEP]") then length token + 4
     else length token + 3) /\
  BERTLM.postprocess token <> token.
Proof.
  assert (H : length (BERTLM.postprocess token) + 2 =
              (if startswith token (str "##") then length token
               else if pystr_eqb token (str "[SEP]") then length token + 4
               else length token + 3)).
  { unfold BERTLM.postprocess, BERTLM.postprocess_flags.
    destruct (startswith token (str "##")) eqn:E.
    - destruct (startswith_hashes token E) as [rest ->].
      unfold pystr_eqb.
      destruct (list_eq_dec N.eq_dec _ _) as [Heq | _];
        [discriminate Heq |].
      simpl. lia.
    - destruct (pystr_eqb token (str "[SEP]")); simpl; lia. }
  split; [exact H |].
  intros Heq. rewrite Heq in H.
  destruct (startswith token (str "##"));
    [| destruct (pystr_eqb token (str "[SEP]"))]; lia.
Qed.

(** X16. A byte-level token that starts with the space marker and whose
    remainder does not start with one of the four artifact characters is
    returned unchanged: the marker that is stripped is the marker that is
    put back. *)
Theorem byte_level_space_token_unchanged (rest : pystr) :
  existsb (startswith rest)
          [[chr_a_circ]; [chr_l_caron]; [chr_L_middot]; [chr_L_cedilla]]
    = false ->
  AraGPT2Base.postprocess (chr_G_dot :: rest) = chr_G_dot :: rest.
Proof.
  cbn [existsb]. intros H. rewrite !orb_false_iff in H.
  destruct H as [H1 [H2 [H3 [H4 _]]]].
  unfold AraGPT2Base.postprocess, AraGPT2Base.postprocess_flags.
  rewrite startswith_single. change (N.eqb chr_G_dot chr_G_dot) with true.
  cbv beta iota zeta. cbn [skipn].
  repeat (first [rewrite H1 | rewrite H2 | rewrite H3 | rewrite H4];
          cbv beta iota zeta).
  reflexivity.
Qed.

Lemma byte_level_space_token_unchanged_witness :
  AraGPT2Base.postprocess (chr_G_dot :: str "the") = chr_G_dot :: str "the".
Proof.
  apply (byte_level_space_token_unchanged (str "the")). reflexivity.
Defined.

(** ** Sampling *)

Lemma insert_desc_perm (x : Q) (l : list Q) :
  Permutation (insert_desc x l) (x :: l).
Proof.
  induction l as [| y l IH]; simpl; [reflexivity |].
  destruct (Qle_bool y x); [reflexivity |].
  rewrite IH. apply perm_swap.
Qed.

Lemma insert_desc_sorted (x : Q) (l : list Q) :
  StronglySorted (fun a b => (b <= a)%Q) l ->
  StronglySorted (fun a b => (b <= a)%Q) (insert_desc x l).
Proof.
  induction l as [| y l IH]; simpl; intros Hs.
  - repeat constructor.
  - apply StronglySorted_inv in Hs. destruct Hs as [Hs Hy].
    destruct (Qle_bool y x) eqn:E.
    + apply Qle_bool_iff in E.
      constructor; [constructor; assumption |].
      constructor; [exact E |].
      rewrite Forall_forall in *. intros z Hz.
      apply Qle_trans with y; auto.
    + constructor; [apply IH; exact Hs |].
      assert (Hxy : (x <= y)%Q).
      { apply Qlt_le_weak, Qnot_le_lt.
        intros H. apply Qle_bool_iff in H. congruence. }
      rewrite Forall_forall in *. intros z Hz.
      apply (Permutation_in _ (insert_desc_perm x l)) in Hz.
      destruct Hz as [<- | Hz]; auto.
Qed.

Lemma sort_desc_perm (l : list Q) : Permutation (sort_desc l) l.
Proof.
  induction l as [| x l IH]; simpl; [reflexivity |].
  rewrite insert_desc_perm, IH. reflexivity.
Qed.

Lemma sort_desc_sorted (l : list Q) :
  StronglySorted (fun a b => (b <= a)%Q) (sort_desc l).
Proof.
  induction l as [| x l IH]; simpl; [constructor |].
  apply insert_desc_sorted; exact IH.
Qed.

(** X17. [top_k_logits] on the scores of one position. With [k = 0] the
    scores are returned unchanged, and a [k] beyond the vocabulary makes
    [torch.topk] raise. Otherwise there is a threshold among the scores,
    the k-th largest one (fewer than k scores are greater, at least k are
    not smaller), and the result keeps every score that is not below the
    threshold and replaces every other score by -1e10: at least k scores
    survive, more than k when scores tie with the threshold. *)
Theorem top_k_logits_outcome (logits : list Q) (k : nat) :
  if k =? 0 then top_k_logits logits k = Ok logits
  else if length logits <? k then top_k_logits logits k = Err RuntimeError
  else
    exists thr,
      In thr logits /\
      top_k_logits logits k =
        Ok (map (fun x => if Qltb x thr then filtered_score else x) logits) /\
      length (filter (fun x => Qltb thr x) logits) < k /\
      k <= length (filter (fun x => negb (Qltb x thr)) logits).
Proof.
  unfold top_k_logits.
  destruct (Nat.eqb_spec k 0) as [-> | Hk]; [reflexivity |].
  unfold torch_topk_values.
  destruct (Nat.ltb_spec (length logits) k) as [Hlt | Hge].
  - destruct (Nat.leb_spec k (length logits)); [lia | reflexivity].
  - destruct (Nat.leb_spec k (length logits)); [| lia].
    cbn [bind].
    pose proof (sort_desc_perm logits) as Hperm.
    pose proof (sort_desc_sorted logits) as Hsorted.
    assert (Hlen : length (sort_desc logits) = length logits)
      by (apply Permutation_length; exact Hperm).
    rewrite length_firstn.
    replace (Nat.min k (length (sort_desc logits)) - 1) with (k - 1) by lia.
    destruct (nth_error (sort_desc logits) (k - 1)) as [thr |] eqn:Et;
      [| apply nth_error_None in Et; lia].
    unfold getitem. rewrite nth_error_firstn.
    destruct (Nat.ltb_spec (k - 1) k); [| lia].
    rewrite Et. cbn [of_option bind].
    exists thr.
    pose proof (nth_error_split_at _ _ _ Et) as Hsplit.
    rewrite Hsplit in Hsorted. apply StronglySorted_middle in Hsorted.
    destruct Hsorted as [Hbefore Hafter].
    rewrite Forall_forall in Hbefore, Hafter.
    split; [| split; [reflexivity | split]].
    + apply (Permutation_in _ Hperm). eapply nth_error_In; exact Et.
    + rewrite <- (Permutation_filter_length _ _ _ Hperm).
      rewrite Hsplit, filter_app. cbn [filter].
      replace (Qltb thr thr) with false
        by (symmetry; apply Qltb_ge, Qle_refl).
      rewrite (filter_none _ (skipn (S (k - 1)) (sort_desc logits)))
        by (intros x Hx; apply Qltb_ge, Hafter; exact Hx).
      rewrite app_nil_r.
      eapply Nat.le_lt_trans; [apply filter_length_le |].
      rewrite length_firstn. lia.
    + rewrite <- (Permutation_filter_length _ _ _ Hperm).
      rewrite Hsplit, filter_app, length_app. cbn [filter].
      replace (Qltb thr thr) with false
        by (symmetry; apply Qltb_ge, Qle_refl).
      cbn [negb length].
      assert (Hall : filter (fun x => negb (Qltb x thr))
                            (firstn (k - 1) (sort_desc logits)) =
                     firstn (k - 1) (sort_desc logits)).
      { apply forallb_filter_id. apply forallb_forall. intros x Hx.
        apply negb_true_iff, Qltb_ge, Hbefore. exact Hx. }
      rewrite Hall, length_firstn. lia.
Qed.

Lemma sample_loop_output (np : Numerics) (self : Sampler) (n topk : nat)
    (temperature : Q) (prev : nat) (output : list nat)
    (past : option (Past self)) (rng : Rng self) (ids : list nat) :
  sample_loop np self n topk temperature prev output past rng = Ok ids ->
  length ids = length output + n /\ firstn (length output) ids = output.
Proof.
  revert prev output past rng.
  induction n as [| n IH]; intros prev output past rng H; cbn [sample_loop] in H.
  - injection H as <-. split; [lia | apply firstn_all].
  - inv_bind H as step Hstep. destruct step as [logits past'].
    inv_bind H as row Hrow. inv_bind H as filtered Hf.
    inv_bind H as draw Hdraw. destruct draw as [tok rng'].
    destruct (IH _ _ _ _ H) as [Hl Hp].
    rewrite length_app in Hl, Hp. simpl in Hl, Hp.
    split; [lia |].
    replace (firstn (length output) ids)
      with (firstn (length output) (firstn (length output + 1) ids))
      by (rewrite firstn_firstn; f_equal; lia).
    rewrite Hp, firstn_app, Nat.sub_diag, firstn_all. simpl.
    apply app_nil_r.
Qed.

(** X18. When [sample_unconditional] gets as far as decoding, the ids it
    decodes are the id of the start token followed by exactly [length]
    sampled ids, one per turn of the loop. *)
Theorem sample_ids_shape (np : Numerics) (self : Sampler) (length topk : nat)
    (temperature : Q) (rng : Rng self) (ids : list nat) :
  sample_ids np self length topk temperature rng = Sampled ids ->
  exists start context,
    start_token self = Some start /\
    enc_encoder self start = Some context /\
    hd_error ids = Some context /\
    List.length ids = length + 1 /\
    sample_unconditional np self length topk temperature rng
      = Sampled (enc_decode self ids).
Proof.
  unfold sample_unconditional, sample_ids.
  destruct (start_token self) as [start |] eqn:Es; [| discriminate].
  destruct (enc_encoder self start) as [context |] eqn:Ec; [| discriminate].
  destruct (sample_loop np self length topk temperature context [context]
                        None rng) as [out |] eqn:E; [| discriminate].
  cbn [lift_result]. intros H. injection H as <-.
  exists start, context.
  destruct (sample_loop_output _ _ _ _ _ _ _ _ _ _ E) as [Hl Hp].
  simpl in Hl, Hp.
  split; [reflexivity |]. split; [exact Ec |].
  split; [| split; [lia | reflexivity]].
  destruct out as [| o out']; [discriminate Hl |].
  simpl in Hp. injection Hp as ->. reflexivity.
Qed.

Lemma sample_ids_shape_witness :
  sample_ids ToySampler.numerics ToySampler.sampler 4 3 1%Q 0
    = Sampled [2; 3; 3; 2; 0] /\
  hd_error [2; 3; 3; 2; 0] = Some 2 /\ length [2; 3; 3; 2; 0] = 4 + 1.
Proof.
  assert (E : sample_ids ToySampler.numerics ToySampler.sampler 4 3 1%Q 0
              = Sampled [2; 3; 3; 2; 0]) by (vm_compute; reflexivity).
  split; [exact E |].
  destruct (sample_ids_shape ToySampler.numerics ToySampler.sampler 4 3
              1%Q 0 _ E) as [start [context [Hs [He [Hh [Hl _]]]]]].
  split; [reflexivity | exact Hl].
Defined.

(** ** What a window depends on *)

(** X20. The window of loop index [m] (target at position [m + 1])
    depends on the tokens at the positions [m - R .. m + R] only, the
    target and the last token of the document excepted: R + 1 tokens to
    the left of the target and R - 1 tokens to its right. Two documents of
    the same length that agree there get the same window. *)
Theorem window_locality (self : BERT) (y y' : list nat) (R m : nat) :
  length y = length y' ->
  (forall i, m - R <= i -> i <= m + R -> i + 1 < length y -> i <> m + 1 ->
             nth_error y i = nth_error y' i) ->
  BERTLM.build_window self y R m = BERTLM.build_window self y' R m.
Proof.
  intros Hlen Hagree. rewrite !build_window_closed, <- Hlen.
  destruct (Nat.ltb_spec (m + 1) (length y)) as [Hlt | Hge];
    [| reflexivity].
  f_equal. f_equal. f_equal.
  set (hi := Nat.min (length y - 1) (m + R + 1)).
  apply nth_error_ext. intros i.
  destruct (Nat.lt_ge_cases i (hi - (m - R))) as [Hi | Hi].
  - rewrite !nth_error_slice by exact Hi.
    rewrite !nth_error_masked_ids by lia.
    destruct (Nat.eqb_spec (m - R + i) (m + 1)); [reflexivity |].
    apply Hagree; lia.
  - rewrite !(proj2 (nth_error_None _ _)); [reflexivity | |];
      rewrite length_slice; try exact Hi;
      rewrite length_masked_ids; lia.
Qed.

Lemma window_locality_witness :
  BERTLM.build_window Toy.bert [2; 5; 5; 5; 5; 5; 5; 3] 1 1 =
  BERTLM.build_window Toy.bert [2; 5; 5; 6; 7; 5; 6; 3] 1 1.
Proof.
  apply window_locality; [reflexivity |].
  intros i H1 H2 H3 H4.
  destruct i as [| [| [| i]]]; try reflexivity; simpl in *; lia.
Defined.

Lemma payload_probabilities_witness :
  Forall (fun e => (0 <= snd e <= 1)%Q) (real_topk Toy.payload_causal) /\
  Forall (fun e => five_decimals (snd e)) (real_topk Toy.payload_causal).
Proof.
  destruct (payload_probabilities Toy.numerics
              (Causal aragpt2_base Toy.gpt2) (str "word word the") 3
              Toy.payload_causal toy_softmax_ok)
    as [[Hr _] Hf].
  - vm_compute. reflexivity.
  - split; [exact Hr |]. apply Hf. reflexivity.
Defined.
